(** * FuXi: sideways information passing and the backward-chaining store

  A shallow embedding of [lib/Rete/SidewaysInformationPassing.py] and of
  the parts of [lib/SPARQL/BackwardChainingStore.py] that thread binding
  environments, followed by the properties established about them.

  Conventions.  Python exceptions are values of [exn] carried by the
  result type [res]; a generator is the finite trace of what it yields
  together with the way it stops ([gen]); code that mutates an rdflib
  graph is a function on the store [st], which is returned even when the
  code raises, because a raise does not undo earlier writes. *)

From Stdlib Require Import Ascii.
From stdpp Require Import base option list sets gmap strings pretty.

Set Warnings "-register-all".

(** ** Python run-time values shared by both source files *)

Module Py.

(** The exceptions the two source files can raise. [TypeError] is also
    what [raise term] produces when [term] is not an exception, and what
    [reduce] raises on an empty sequence. *)
Inductive exn :=
| Exception (msg : string)
| InvalidSIPException
| AssertionError
| TypeError
| KeyError
| IndexError
| NonTermination.

Inductive res (A : Type) :=
| Ok (a : A)
| Raise (e : exn).
Global Arguments Ok {A} a.
Global Arguments Raise {A} e.

Definition rbind {A B} (m : res A) (k : A → res B) : res B :=
  match m with
  | Ok a => k a
  | Raise e => Raise e
  end.

Definition is_ok {A} (m : res A) : bool :=
  match m with Ok _ => true | Raise _ => false end.

(** [[f(x) for x in l]] where [f] may raise: the first raise wins. *)
Fixpoint rmap {A B} (f : A → res B) (l : list A) : res (list B) :=
  match l with
  | [] => Ok []
  | x :: l' =>
      rbind (f x) (λ y, rbind (rmap f l') (λ ys, Ok (y :: ys)))
  end.

(** A generator run to exhaustion: the values it yields, in order, and
    the exception that ends it, if any ([None]: [StopIteration]). *)
Record gen (A : Type) := Gen { yields : list A; stop : option exn }.
Global Arguments Gen {A} yields stop.
Global Arguments yields {A} g.
Global Arguments stop {A} g.

Definition gen_nil {A} : gen A := Gen [] None.
Definition gen_yield {A} (a : A) : gen A := Gen [a] None.
Definition gen_raise {A} (e : exn) : gen A := Gen [] (Some e).

(** Sequencing of two generator bodies: the second runs only when the
    first one ends without raising. *)
Definition gen_seq {A} (g1 g2 : gen A) : gen A :=
  match stop g1 with
  | Some e => g1
  | None => Gen (yields g1 ++ yields g2) (stop g2)
  end.

(** [for x in l: <body x>] inside a generator. *)
Fixpoint gen_for {A B} (l : list A) (body : A → gen B) : gen B :=
  match l with
  | [] => gen_nil
  | x :: l' => gen_seq (body x) (gen_for l' body)
  end.

(** [rdflib.util.first]: the first item of an iterable, or [None]. *)
Definition first {A} (g : gen A) : res (option A) :=
  match yields g, stop g with
  | a :: _, _ => Ok (Some a)
  | [], None => Ok None
  | [], Some e => Raise e
  end.

(** The built-in [filter] with a total predicate. *)
Definition gen_filter {A} (p : A → bool) (g : gen A) : gen A :=
  Gen (List.filter p (yields g)) (stop g).

End Py.
Export Py.

(** [res] is a monad; stdpp's [x ← m; k] notation is used for it. *)
Global Instance res_ret : MRet res := λ A a, Ok a.
Global Instance res_bind : MBind res := λ A B k m, rbind m k.

(** ** RDF terms *)

Module Term.

(** rdflib's four kinds of node.  Each is a subclass of [str]: the
    payload is the string Python sees when the node is concatenated or
    joined. *)
Inductive term :=
| Var (name : string)
| BNode (id : string)
| URIRef (iri : string)
| Literal (lex : string).

Global Instance term_eq_dec : EqDecision term.
Proof. solve_decision. Defined.

Definition term_code (t : term) : nat * string :=
  match t with
  | Var s => (0, s)
  | BNode s => (1, s)
  | URIRef s => (2, s)
  | Literal s => (3, s)
  end.

Definition term_decode (p : nat * string) : term :=
  match p with
  | (0, s) => Var s
  | (1, s) => BNode s
  | (2, s) => URIRef s
  | (_, s) => Literal s
  end.

Global Instance term_countable : Countable term.
Proof. apply (inj_countable' term_code term_decode). by intros []. Defined.

(** [str(t)] *)
Definition term_str (t : term) : string :=
  match t with
  | Var s | BNode s | URIRef s | Literal s => s
  end.

(** Truth value of a node: that of its string. *)
Definition truthy (t : term) : bool :=
  match term_str t with
  | EmptyString => false
  | _ => true
  end.

(** [isinstance(t, Variable)] *)
Definition isVariable (t : term) : bool :=
  match t with Var _ => true | _ => false end.

(** [isinstance(t, (Variable, BNode))] *)
Definition isVariableOrBNode (t : term) : bool :=
  match t with Var _ | BNode _ => true | _ => false end.

Definition RDF_type : term :=
  URIRef "http://www.w3.org/1999/02/22-rdf-syntax-ns#type".
Definition RDF_first : term :=
  URIRef "http://www.w3.org/1999/02/22-rdf-syntax-ns#first".
Definition RDF_rest : term :=
  URIRef "http://www.w3.org/1999/02/22-rdf-syntax-ns#rest".
Definition RDF_nil : term :=
  URIRef "http://www.w3.org/1999/02/22-rdf-syntax-ns#nil".

(** [MAGIC = Namespace('http://doi.acm.org/10.1145/28659.28689#')] *)
Definition MAGIC (name : string) : term :=
  URIRef ("http://doi.acm.org/10.1145/28659.28689#" +:+ name).

Definition MAGIC_SipArc : term := MAGIC "SipArc".
Definition MAGIC_bindings : term := MAGIC "bindings".
Definition MAGIC_BoundHeadPredicate : term := MAGIC "BoundHeadPredicate".

End Term.
Export Term.

(** ** Conditions: the literals and connectives of a clause *)

Module Condition.

(** Modelled from the spec: the classes [Uniterm], [Exists], [And] and
    [Or] of FuXi.Horn.PositiveConditions and [N3Builtin] of
    FuXi.Rete.RuleStore are defined outside the two modules embedded
    here.  A uniterm is the triple (subject, predicate, object): [op] is
    its predicate and [arg] the two-element list [[arg0; arg1]]; [naf]
    marks a negated literal.  A builtin has the fields [uri], [argument]
    and [result].  [And] and [Or] are the two [SetOperator]s, whose
    length, and so whose truth value, is that of their [formulae]. *)
Inductive condition :=
| N3Builtin (uri argument result : term)
| Uniterm (op arg0 arg1 : term) (naf : bool)
| Exists (formula : condition)
| And (formulae : list condition)
| Or (formulae : list condition).

(** Structural comparison of two conditions. *)
Fixpoint condition_eqb (c d : condition) : bool :=
  let fix all2 (l m : list condition) : bool :=
    match l, m with
    | [], [] => true
    | x :: l', y :: m' => condition_eqb x y && all2 l' m'
    | _, _ => false
    end in
  match c, d with
  | N3Builtin u a r, N3Builtin u' a' r' =>
      bool_decide (u = u') && bool_decide (a = a') && bool_decide (r = r')
  | Uniterm o s t n, Uniterm o' s' t' n' =>
      bool_decide (o = o') && bool_decide (s = s')
      && bool_decide (t = t') && bool_decide (n = n')
  | Exists f, Exists f' => condition_eqb f f'
  | And l, And m => all2 l m
  | Or l, Or m => all2 l m
  | _, _ => false
  end.

(** A Python object as the SIP builder sees it: a condition and whether
    the attribute [isHead] has been set on it. *)
Record pyobj := PyObj { cond : condition; isHead : bool }.

Definition obj (c : condition) : pyobj := PyObj c false.

(** A clause [head :- body]. *)
Record clause := Clause { head : condition; body : condition }.

End Condition.
Export Condition.

(** ** Term introspection (component A) *)

Module Introspection.

(** [GetOp(term)] *)
Fixpoint GetOp (t : condition) : res term :=
  match t with
  | N3Builtin uri _ _ => Ok uri
  | Uniterm op _ arg1 _ =>
      (* term.op == RDF.type and term.arg[-1] or term.op *)
      Ok (if bool_decide (op = RDF_type) && truthy arg1 then arg1 else op)
  | Exists formula => GetOp formula
  | _ => Raise (Exception "GetOp unable to get op")
  end.

(** [GetArgs(term, secondOrder)]; the final [raise term] raises a
    non-exception, which Python reports as a [TypeError]. *)
Fixpoint GetArgs (t : condition) (secondOrder : bool) : res (list term) :=
  match t with
  | N3Builtin _ argument result => Ok [argument; result]
  | Uniterm op arg0 arg1 _ =>
      if bool_decide (op = RDF_type) then
        if secondOrder && isVariableOrBNode arg1
        then Ok [arg0; arg1]
        else Ok [arg0]
      else if isVariableOrBNode op then Ok (op :: [arg0; arg1])
      else Ok [arg0; arg1]
  | Exists formula => GetArgs formula secondOrder
  | _ => Raise TypeError
  end.

(** [GetVariables(term, secondOrder)], run to exhaustion. *)
Definition GetVariables (t : condition) (secondOrder : bool) : gen term :=
  match GetArgs t secondOrder with
  | Ok args => Gen (List.filter isVariable args) None
  | Raise e => gen_raise e
  end.

(** [SetOp(term, value)]: the object after the assignment. *)
Definition SetOp (t : condition) (value : term) : res condition :=
  match t with
  | N3Builtin _ argument result => Ok (N3Builtin value argument result)
  | Uniterm op arg0 arg1 naf =>
      if bool_decide (op = RDF_type)
      then Ok (Uniterm op arg0 value naf)
      else Ok (Uniterm value arg0 arg1 naf)
  | _ => Raise (Exception "SetOp unable to set op")
  end.

(** [iterCondition(condition)]: the items the returned iterator gives.
    A [SetOperator] without formulae is false, so it is iterated as the
    one-element list holding itself. *)
Fixpoint iterCondition (c : condition) : list condition :=
  match c with
  | Exists formula => iterCondition formula
  | And [] | Or [] => [c]
  | And l | Or l => l
  | _ => [c]
  end.

(** [getOccurrenceId(uniterm, lookup)]: the identifier and the updated
    lookup table. *)
Definition getOccurrenceId (uniterm : condition) (lookup : gmap term term)
  : res (term * gmap term term) :=
  op ← GetOp uniterm;
  args ← GetArgs uniterm false;
  let pO := URIRef (term_str op +:+ "_" +:+ String.concat "_" (term_str <$> args)) in
  Ok (pO, <[pO := op]> lookup).

(** The identifier alone, when the call returns one. *)
Definition occurrence_of (r : res (term * gmap term term)) : option term :=
  match r with
  | Ok (pO, _) => Some pO
  | Raise _ => None
  end.

(** The string has no underscore in it. *)
Fixpoint underscore_free (s : string) : bool :=
  match s with
  | EmptyString => true
  | String a s' => negb (Ascii.eqb a "_"%char) && underscore_free s'
  end.

End Introspection.
Export Introspection.

(** ** The RDF graph that stores a SIP (component B) *)

Module SipGraph.

Definition triple : Type := term * term * term.

(** The store a graph-mutating function runs in: the triples of
    [sipGraph] and the supply of fresh blank nodes. *)
Record st := St { graph : gset triple; next_bnode : nat }.

Definition M (A : Type) : Type := st → res A * st.

(** [BNode()] *)
Definition new_BNode (s : st) : term * st :=
  (BNode ("N" +:+ pretty (next_bnode s)), St (graph s) (S (next_bnode s))).

(** A triple pattern: [None] is the wildcard. *)
Definition pattern : Type := option term * option term * option term.

Definition matches (pat : pattern) (t : triple) : bool :=
  let '(ps, pp, po) := pat in
  let '(s, p, o) := t in
  from_option (λ x, bool_decide (x = s)) true ps
  && from_option (λ x, bool_decide (x = p)) true pp
  && from_option (λ x, bool_decide (x = o)) true po.

(** [graph.add(t)], [graph.remove(pat)], [graph.set((s, p, o))] *)
Definition graph_add (t : triple) (g : gset triple) : gset triple :=
  {[ t ]} ∪ g.
Definition graph_remove (pat : pattern) (g : gset triple) : gset triple :=
  filter (λ t, matches pat t = false) g.
Definition graph_set (t : triple) (g : gset triple) : gset triple :=
  graph_add t (graph_remove (Some t.1.1, Some t.1.2, None) g).

(** [graph.objects(s, p)] and [graph.value(s, p)] *)
Definition graph_objects (s p : term) (g : gset triple) : list term :=
  (λ t : triple, t.2) <$> List.filter (matches (Some s, Some p, None)) (elements g).
Definition graph_value (s p : term) (g : gset triple) : option term :=
  List.head (graph_objects s p g).

(** rdflib's [Collection._end]: follow [rdf:rest] from [container] to
    the last cell.  A list has at most as many cells as the graph has
    triples, so running out of [fuel] means the list is cyclic. *)
Fixpoint Collection_end (fuel : nat) (container : term) (g : gset triple)
  : res term :=
  match graph_value container RDF_rest g with
  | None => Ok container
  | Some rest =>
      if bool_decide (rest = RDF_nil) then Ok container
      else match fuel with
           | O => Raise NonTermination
           | S fuel' => Collection_end fuel' rest g
           end
  end.

(** rdflib's [Collection.append(item)] on the collection rooted at [uri]. *)
Definition Collection_append (uri item : term) : M unit := λ s,
  match Collection_end (size (graph s)) uri (graph s) with
  | Raise e => (Raise e, s)
  | Ok last =>
      let '(last', s') :=
        if bool_decide (graph_objects last RDF_first (graph s) ≠ [])
        then
          let '(node, s1) := new_BNode s in
          (node, St (graph_set (last, RDF_rest, node) (graph s1)) (next_bnode s1))
        else (last, s) in
      (Ok (),
       St (graph_add (last', RDF_rest, RDF_nil)
             (graph_add (last', RDF_first, item) (graph s')))
          (next_bnode s'))
  end.

(** [[col.append(i) for i in items]] *)
Fixpoint Collection_extend (uri : term) (items : list term) : M unit := λ s,
  match items with
  | [] => (Ok (), s)
  | i :: items' =>
      match Collection_append uri i s with
      | (Ok _, s') => Collection_extend uri items' s'
      | (Raise e, s') => (Raise e, s')
      end
  end.

(** rdflib's [Collection.clear()]: while [container] is true, remove
    the [rdf:first] and [rdf:rest] triples of the cell and move on to
    what [rdf:rest] pointed to. *)
Fixpoint Collection_clear (fuel : nat) (container : term) (g : gset triple)
  : res (gset triple) :=
  if truthy container then
    let rest := graph_value container RDF_rest g in
    let g' := graph_remove (Some container, Some RDF_rest, None)
                (graph_remove (Some container, Some RDF_first, None) g) in
    match rest with
    | None => Ok g'
    | Some next =>
        match fuel with
        | O => Raise NonTermination
        | S fuel' => Collection_clear fuel' next g'
        end
    end
  else Ok g.

(** The solutions of
    [SELECT ?N ?prop ?q { ?prop a magic:SipArc . ?N ?prop ?q . }]. *)
Definition sip_arcs (g : gset triple) : list triple :=
  List.filter
    (λ t : triple, bool_decide ((t.1.2, RDF_type, MAGIC_SipArc) ∈ g))
    (elements g).

(** A graph is arcless when nothing in it is typed [magic:SipArc]. *)
Definition arcless (g : gset triple) : Prop :=
  ∀ s, (s, RDF_type, MAGIC_SipArc) ∉ g.

(** [SIPGraphArc(left, right, variables, graph, headPassing)]: both
    branches on [headPassing] add the same triple.  [skolem_ns] stands
    for [SKOLEMIZED_CLASS_NS], a constant of FuXi.DLP. *)
Definition SIPGraphArc (skolem_ns : string) (left right : term)
    (variables : list term) (headPassing : bool) : M term := λ s,
  let '(b, s) := new_BNode s in
  let arc := URIRef (skolem_ns +:+ term_str b) in
  let s := St (graph_add (arc, RDF_type, MAGIC_SipArc) (graph s)) (next_bnode s) in
  let '(varsCol, s) := new_BNode s in
  match Collection_extend varsCol variables s with
  | (Raise e, s) => (Raise e, s)
  | (Ok _, s) =>
      let g := graph_add (arc, MAGIC_bindings, varsCol) (graph s) in
      (Ok arc, St (graph_add (left, arc, right) g) (next_bnode s))
  end.

(** The solutions of the query of [validSip]:
    [SELECT ?arc { ?arc m:bindings ?bindings
                   OPTIONAL { ?bindings rdf:first ?val }
                   FILTER(!BOUND(?val)) }]. *)
Definition arcs_without_bindings (g : gset triple) : list term :=
  (λ t : triple, t.1.1) <$>
  List.filter
    (λ t : triple,
       bool_decide (t.1.2 = MAGIC_bindings)
       && bool_decide (graph_objects t.2 RDF_first g = []))
    (elements g).

(** [validSip(sipGraph)] *)
Definition validSip (g : gset triple) : bool :=
  if bool_decide (size g = 0) then false
  else match arcs_without_bindings g with
       | _ :: _ => false
       | [] => true
       end.

End SipGraph.
Export SipGraph.

(** ** SIP ordering search and construction (components C and D) *)

Module SidewaysInformationPassing.

(** What the Python run time decides and the source does not: the order
    in which [list(set(l))] lists the distinct members of [l], and the
    comparison [i != item] of two condition objects. *)
Class PyRuntime := {
  set_order : list pyobj → list pyobj;
  cond_neq : condition → condition → bool
}.

(** The second argument of [findFullSip]: the [And] body of the clause,
    or a plain Python list. *)
Inductive pyseq :=
| AndSeq (formulae : list condition)
| ListSeq (items : list condition).

Definition seq_items (right : pyseq) : list condition :=
  match right with AndSeq l | ListSeq l => l end.

(** [isinstance(right, And)] *)
Definition isAnd (right : pyseq) : bool :=
  match right with AndSeq _ => true | ListSeq _ => false end.

(** [bool(s)] of a set. *)
Definition nonempty (s : gset term) : bool := bool_decide (s ≠ ∅).

(** The variables [findFullSip] starts from when it is given none. *)
Definition initial_vars (rt : list condition) : res (gset term) :=
  match rt with
  | [r0] => args ← GetArgs r0 true; Ok (list_to_set args)
  | [l; r] =>
      la ← GetArgs l true;
      ra ← GetArgs r true;
      Ok (list_to_set (List.filter isVariableOrBNode (la ++ ra)))
  | _ => Raise TypeError
  end.

Section Search.
Context `{PyRuntime}.

(** [findFullSip((rt, vars), right)]; [fuel] bounds the depth of the
    recursion. *)
Fixpoint findFullSip_fuel (fuel : nat) (rt : list condition)
    (vars : option (gset term)) (right : pyseq) : gen (list condition) :=
  let vars0 :=
    match vars with
    | Some v => if nonempty v then Ok v else initial_vars rt
    | None => initial_vars rt
    end in
  match vars0 with
  | Raise e => gen_raise e
  | Ok vars =>
      match seq_items right with
      | [r0] =>
          match GetArgs r0 true with
          | Raise e => gen_raise e
          | Ok args =>
              if nonempty (list_to_set args ∩ vars) then
                (* yield rt + list(right) if isinstance(right, And)
                   else right *)
                gen_yield (if isAnd right then rt ++ seq_items right
                           else seq_items right)
              else gen_nil
          end
      | items =>
          gen_for items (λ item,
            match GetArgs item true with
            | Raise e => gen_raise e
            | Ok args =>
                let _vars : gset term :=
                  list_to_set (List.filter isVariableOrBNode args) in
                if nonempty (_vars ∩ vars) then
                  match fuel with
                  | O => gen_raise NonTermination
                  | S fuel' =>
                      findFullSip_fuel fuel' (rt ++ [item])
                        (Some (vars ∪ (_vars ∖ vars)))
                        (ListSeq (List.filter (λ i, cond_neq i item) items))
                  end
                else gen_nil
            end)
      end
  end.

Definition findFullSip (rtvars : list condition * option (gset term))
    (right : pyseq) : gen (list condition) :=
  findFullSip_fuel (length (seq_items right)) rtvars.1 rtvars.2 right.

End Search.

(** [isinstance(i, Uniterm) and i.naf or False] *)
Definition isNafUniterm (c : condition) : bool :=
  match c with Uniterm _ _ _ naf => naf | _ => false end.

Definition literal_vars (c : condition) : gset term :=
  match GetArgs c true with
  | Ok args => list_to_set (List.filter isVariableOrBNode args)
  | Raise _ => ∅
  end.

(** [a] is an atom that provides a binding of the literal [l]. *)
Definition providesBindingFor (a l : condition) : bool :=
  negb (isNafUniterm a) && nonempty (literal_vars a ∩ literal_vars l).

(** Modelled from the spec: [ProperSipOrderWithNegation] of
    FuXi.DLP.Negation is defined outside the two modules embedded here.
    An ordering is proper when every negated literal appears after all
    atoms providing its variable bindings: no such atom follows it. *)
Fixpoint ProperSipOrderWithNegation (order : list condition) : bool :=
  match order with
  | [] => true
  | l :: rest =>
      (if isNafUniterm l
       then forallb (λ a, negb (providesBindingFor a l)) rest
       else true)
      && ProperSipOrderWithNegation rest
  end.


(** The accumulator of [reduce(collectSip, ...)]: the first item of the
    sequence, then the list the previous call returned. *)
Inductive acc :=
| Single (o : pyobj)
| Many (l : list pyobj).

(** [bool(l)] of a list. *)
Definition nonnil {A} (l : list A) : bool :=
  match l with [] => false | _ => true end.

(** [CollectSIPArcVars(left, right, phBoundVars)] *)
Definition CollectSIPArcVars (left : acc) (right : pyobj)
    (phBoundVars : list term) : res (gset term) :=
  match left with
  | Many l =>
      parts ← rmap (λ t : pyobj,
                      if isHead t && nonnil phBoundVars then Ok phBoundVars
                      else GetArgs (cond t) true) l;
      match parts with
      | [] => Raise TypeError
      | _ =>
          rargs ← GetArgs (cond right) true;
          Ok (list_to_set (concat parts) ∩ list_to_set rargs)
      end
  | Single o =>
      incomingVarsToInclude ←
        (if nonnil phBoundVars then Ok phBoundVars
         else GetArgs (cond o) true);
      rargs ← GetArgs (cond right) true;
      Ok (list_to_set incomingVarsToInclude ∩ list_to_set rargs)
  end.

(** [reduce(f, items)] for a function that runs in the store. *)
Fixpoint reduce_from (f : acc → pyobj → M acc) (left : acc)
    (items : list pyobj) : M acc := λ s,
  match items with
  | [] => (Ok left, s)
  | r :: items' =>
      match f left r s with
      | (Ok left', s') => reduce_from f left' items' s'
      | (Raise e, s') => (Raise e, s')
      end
  end.

Definition reduce (f : acc → pyobj → M acc) (items : list pyobj) : M acc :=
  λ s,
  match items with
  | [] => (Raise TypeError, s)
  | x :: items' => reduce_from f (Single x) items' s
  end.

(** Modelled from the spec: the adorned head is an [AdornedUniTerm] of
    FuXi.Rete.Magic, defined outside the two modules embedded here.  It
    carries an adornment, a sequence over b and f with one position per
    head argument; [distinguished] is what
    [getDistinguishedVariables(varsOnly=True)] yields, the variables at
    the bound positions.  [isAdornedUniTerm] is the outcome of the
    [isinstance] test on the object passed as [adornedHead]. *)
Record adorned := Adorned {
  isAdornedUniTerm : bool;
  adornment : list string;
  distinguished : list term
}.

(** [isinstance(adornedHead, AdornedUniTerm)
     and 'b' in adornedHead.adornment] *)
Definition isBoundHead (adornedHead : adorned) : bool :=
  isAdornedUniTerm adornedHead && bool_decide ("b" ∈ adornment adornedHead).

(** The graph [BuildNaturalSIP] returns, with its [sipOrder] attribute. *)
Record sipGraph := SIPGraph { triples : gset triple; sipOrder : condition }.

Section Build.
Context `{PyRuntime}.
Context (phBoundVars : list term) (ignoreUnboundDPreds boundHead : bool).

(** The closure [collectSip(left, right)] of [BuildNaturalSIP].  The
    two [SIPGraphArc(...)] constructions of its body are commented
    out in the source, so no call is made to it here. *)
Definition collectSip (left : acc) (right : pyobj) : M acc := λ s,
  match left with
  | Many l =>
      match CollectSIPArcVars left right phBoundVars with
      | Raise e => (Raise e, s)
      | Ok vars =>
          if negb (nonempty vars) && ignoreUnboundDPreds
          then (Raise InvalidSIPException, s)
          else
            (* leftList = Collection(sipGraph, None) *)
            let '(leftList, s) := new_BNode s in
            let left' := set_order l in
            match rmap (λ ii, GetOp (cond ii)) left' with
            | Raise e => (Raise e, s)
            | Ok ops =>
                match Collection_extend leftList ops s with
                | (Raise e, s) => (Raise e, s)
                | (Ok _, s) => (Ok (Many (left' ++ [right])), s)
                end
            end
      end
  | Single o =>
      (* left.isHead = True *)
      let left' := PyObj (cond o) true in
      match CollectSIPArcVars (Single left') right phBoundVars with
      | Raise e => (Raise e, s)
      | Ok vars =>
          if negb (nonempty vars) && ignoreUnboundDPreds
          then (Raise InvalidSIPException, s)
          else
            match GetOp (cond left') with
            | Raise e => (Raise e, s)
            | Ok ph =>
                if boundHead then
                  (Ok (Many [left'; right]),
                   St (graph_add (ph, RDF_type, MAGIC_BoundHeadPredicate)
                         (graph s)) (next_bnode s))
                else (Ok (Many [right]), s)
            end
      end
  end.

(** [reduce(collectSip, iterCondition(And(order)))]; the objects of
    an ordering enter the fold without the [isHead] mark. *)
Definition foldOrder (order : list condition) : M acc :=
  reduce collectSip (obj <$> iterCondition (And order)).

(** An ordering is skipped when its fold raises [InvalidSIPException]. *)
Definition skipped (o : list condition) : Prop :=
  ∃ s1 s2, foldOrder o s1 = (Raise InvalidSIPException, s2).

(** The loop of the [ignoreUnboundDPreds] branch: take orderings from
    the generator until one folds without [InvalidSIPException]. *)
Fixpoint firstFoldingSip (sips : list (list condition))
    (stop : option exn) : M (list condition) := λ s,
  match sips with
  | [] =>
      (Raise (match stop with None => InvalidSIPException | Some e => e end),
       s)
  | sip :: sips' =>
      match foldOrder sip s with
      | (Ok _, s') => (Ok sip, s')
      | (Raise InvalidSIPException, s') => firstFoldingSip sips' stop s'
      | (Raise e, s') => (Raise e, s')
      end
  end.

(** The body ordering [BuildNaturalSIP] settles on for a clause whose
    body is [And(formulae)] (the branch that ends by setting
    [sipGraph.sipOrder = And(bodyOrder[1:])]). *)
Definition chooseBodyOrder (head : condition) (formulae : list condition)
    : M (list condition) := λ s,
  let sips := findFullSip ([head], None) (AndSeq formulae) in
  if ignoreUnboundDPreds then firstFoldingSip (yields sips) (stop sips) s
  else
    let found :=
      if existsb isNafUniterm formulae
      then first (gen_filter ProperSipOrderWithNegation sips)
      else first sips in
    match found with
    | Raise e => (Raise e, s)
    | Ok None | Ok (Some []) => (Raise AssertionError, s)
    | Ok (Some bodyOrder) =>
        match foldOrder bodyOrder s with
        | (Ok _, s') => (Ok bodyOrder, s')
        | (Raise e, s') => (Raise e, s')
        end
    end.

End Build.

(** *** The generalization of the SIP (arcs into derived predicates) *)

(** The test of the generalization loop, for the operator
    [occurLookup[q]] of an arc's destination:
    [op not in derivedPreds and
     (op not in hybridPreds2Replace if hybridPreds2Replace else False)]. *)
Definition dropsArc (derivedPreds : list term)
    (hybridPreds2Replace : option (list term)) (op : term) : bool :=
  bool_decide (op ∉ derivedPreds)
  && match hybridPreds2Replace with
     | Some (x :: h) => bool_decide (op ∉ x :: h)
     | _ => false
     end.

(** [Collection(sipGraph, uri)] takes a fresh blank node when [uri] is
    [None] or false. *)
Definition Collection_uri (uri : option term) (s : st) : term * st :=
  match uri with
  | Some u => if truthy u then (u, s) else new_BNode s
  | None => new_BNode s
  end.

(** The first loop of the generalization: what to remove and which
    collections to clear. *)
Fixpoint arcsToDrop (occurLookup : gmap term term) (derivedPreds : list term)
    (hybridPreds2Replace : option (list term)) (arcs : list triple)
    : M (list pattern * list term) := λ s,
  match arcs with
  | [] => (Ok ([], []), s)
  | (N, prop, q) :: arcs' =>
      match occurLookup !! q with
      | None => (Raise KeyError, s)
      | Some op =>
          if dropsArc derivedPreds hybridPreds2Replace op then
            let '(colN, s) := Collection_uri (Some N) s in
            let bindingsColBNode := graph_value prop MAGIC_bindings (graph s) in
            let '(colB, s) := Collection_uri bindingsColBNode s in
            match arcsToDrop occurLookup derivedPreds hybridPreds2Replace
                    arcs' s with
            | (Ok (arcsToRemove, collectionsToClear), s) =>
                (Ok ((Some N, Some prop, Some q) :: (Some prop, None, None)
                       :: arcsToRemove,
                     colN :: colB :: collectionsToClear), s)
            | (Raise e, s) => (Raise e, s)
            end
          else arcsToDrop occurLookup derivedPreds hybridPreds2Replace arcs' s
      end
  end.

(** [for col in collectionsToClear: col.clear()] *)
Fixpoint clearAll (cols : list term) (g : gset triple) : res (gset triple) :=
  match cols with
  | [] => Ok g
  | col :: cols' => g' ← Collection_clear (size g) col g; clearAll cols' g'
  end.

(** The block of [BuildNaturalSIP] guarded by [if derivedPreds:]. *)
Definition generalizeSip (occurLookup : gmap term term)
    (derivedPreds : list term) (hybridPreds2Replace : option (list term))
    : M unit := λ s,
  match arcsToDrop occurLookup derivedPreds hybridPreds2Replace
          (sip_arcs (graph s)) s with
  | (Raise e, s) => (Raise e, s)
  | (Ok (arcsToRemove, collectionsToClear), s) =>
      let g := foldl (λ g pat, graph_remove pat g) (graph s) arcsToRemove in
      match clearAll collectionsToClear g with
      | Raise e => (Raise e, St g (next_bnode s))
      | Ok g' => (Ok (), St g' (next_bnode s))
      end
  end.

(** [BuildNaturalSIP(clause, derivedPreds, adornedHead,
                     hybridPreds2Replace, ignoreUnboundDPreds)] *)
Definition BuildNaturalSIP `{PyRuntime} (clause : clause)
    (derivedPreds : list term) (adornedHead : adorned)
    (hybridPreds2Replace : option (list term)) (ignoreUnboundDPreds : bool)
    : res sipGraph :=
  let occurLookup : gmap term term := ∅ in
  let boundHead := isBoundHead adornedHead in
  let phBoundVars := distinguished adornedHead in
  let collect := collectSip phBoundVars ignoreUnboundDPreds boundHead in
  let sipGraph0 := St ∅ 0 in
  let built : res condition * st :=
    match body clause with
    | And formulae =>
        match chooseBodyOrder phBoundVars ignoreUnboundDPreds boundHead
                (head clause) formulae sipGraph0 with
        | (Ok bodyOrder, s) => (Ok (And (tail bodyOrder)), s)
        | (Raise e, s) => (Raise e, s)
        end
    | _ =>
        if boundHead then
          match reduce collect
                  (obj <$> (iterCondition (head clause)
                            ++ iterCondition (body clause))) sipGraph0 with
          | (Ok _, s) => (Ok (body clause), s)
          | (Raise e, s) => (Raise e, s)
          end
        else (Ok (body clause), sipGraph0)
    end in
  match built with
  | (Raise e, _) => Raise e
  | (Ok order, s) =>
      if nonnil derivedPreds then
        match generalizeSip occurLookup derivedPreds hybridPreds2Replace s with
        | (Ok _, s') => Ok (SIPGraph (graph s') order)
        | (Raise e, _) => Raise e
        end
      else Ok (SIPGraph (graph s) order)
  end.

(** The run time used to evaluate the code on concrete clauses: a set
    lists its members in order of first insertion, and two conditions
    differ when they are not structurally equal. *)
Fixpoint dedupe (l : list pyobj) : list pyobj :=
  match l with
  | [] => []
  | x :: l' =>
      x :: List.filter (λ y, negb (condition_eqb (cond y) (cond x))) (dedupe l')
  end.

Definition structuralRuntime : PyRuntime :=
  {| set_order := dedupe; cond_neq := λ a b, negb (condition_eqb a b) |}.

End SidewaysInformationPassing.
Export SidewaysInformationPassing.

(** ** Reading a SIP graph back *)

Module SipReading.

(** The first component of a pair [IncomingSIPArcs] yields: the
    one-element list [[s]] for a bound head predicate, or the collection
    [Collection(sip, s)], named by its root. *)
Inductive arcSource :=
| BoundHead (s : term)
| SourceCollection (uri : term).

(** The loop of [IncomingSIPArcs] over the triples that end in
    [predOcc].  A [Collection] is made without items, which writes
    nothing; it takes a blank node from the supply when its root is
    [None] or false. *)
Fixpoint IncomingSIPArcs_from (ts : list triple) (s : st)
    : list (arcSource * term) * st :=
  match ts with
  | [] => ([], s)
  | (subj, p, o) :: ts' =>
      if bool_decide ((p, RDF_type, MAGIC_SipArc) ∈ graph s) then
        let '(src, s) :=
          if bool_decide ((subj, RDF_type, MAGIC_BoundHeadPredicate) ∈ graph s)
          then (BoundHead subj, s)
          else let '(c, s) := Collection_uri (Some subj) s in
               (SourceCollection c, s) in
        let '(b, s) :=
          Collection_uri (graph_value p MAGIC_bindings (graph s)) s in
        let '(more, s) := IncomingSIPArcs_from ts' s in
        ((src, b) :: more, s)
      else IncomingSIPArcs_from ts' s
  end.

(** [IncomingSIPArcs(sip, predOcc)], run to exhaustion. *)
Definition IncomingSIPArcs (predOcc : term) (s : st)
    : list (arcSource * term) * st :=
  IncomingSIPArcs_from
    (List.filter (matches (None, None, Some predOcc)) (elements (graph s))) s.

(** The blank nodes the supply has still to hand out, and the arcs named
    after them, are not yet subjects of the graph: [BNode()] never
    returns a node that is in use. *)
Definition fresh_supply (skolem_ns : string) (s : st) : Prop :=
  ∀ k p o, next_bnode s ≤ k →
    ((BNode ("N" +:+ pretty k), p, o) ∉ graph s)
    ∧ ((URIRef (skolem_ns +:+ "N" +:+ pretty k), p, o) ∉ graph s).

(** The last character of a string. *)
Fixpoint last_ascii (s : string) : option ascii :=
  match s with
  | EmptyString => None
  | String a EmptyString => Some a
  | String _ s' => last_ascii s'
  end.

(** The members of the accumulator of the fold. *)
Definition acc_members (left : acc) : list pyobj :=
  match left with Single o => [o] | Many l => l end.

(** A literal: a builtin or a uniterm. *)
Definition isLiteral (c : condition) : bool :=
  match c with N3Builtin _ _ _ | Uniterm _ _ _ _ => true | _ => false end.

End SipReading.
Export SipReading.

(** ** The backward-chaining store (components E and F) *)

Module BackwardChainingStore.

(** A binding environment: a Python [dict] from variables to values. *)
Abbreviation env := (gmap term term).

(** The order in which [list(set(l))] lists a set of terms: some
    arrangement of the distinct members of [l]. *)
Class TermSetOrder := {
  term_order : list term → list term;
  term_order_perm : ∀ l, term_order l ≡ₚ remove_dups l
}.

(** What [invokeDecisionProcedure] yields first in each pair: a solution
    of an open query, or the truth value of a ground one. *)
Inductive answer :=
| AnsDict (d : env)
| AnsBool (b : bool).

(** Modelled from the spec: [mergeMappings1To2] of FuXi.Rete.TopDown is
    defined outside the two modules embedded here.  The merge of two
    environments is defined iff they agree on the intersection of their
    keys; otherwise it fails. *)
Definition mergeMappings1To2 (mapping1 mapping2 : env) : option env :=
  if decide (map_agree mapping1 mapping2)
  then Some (mapping1 ∪ mapping2)
  else None.

(** The fields of [TopDownSPARQLEntailingStore] read below; the rules of
    [idb] are objects, named by their address in the heap. *)
Record store := Store {
  derivedPredicates : list term;
  hybridPredicates : list term;
  idb : list nat
}.

(** [self.derivedPredicateFromTriple(triple)] *)
Definition derivedPredicateFromTriple (self : store) (t : triple)
    : option term :=
  let '(s, p, o) := t in
  if bool_decide (p ∈ derivedPredicates self)
     || bool_decide (p ∈ hybridPredicates self)
  then Some p
  else if bool_decide (p = RDF_type) && bool_decide (o ≠ p)
          && (bool_decide (o ∈ derivedPredicates self)
              || bool_decide (o ∈ hybridPredicates self))
  then Some o
  else None.

(** Modelled from the spec: a merge that is not defined fails with the
    error the specification names MergeConflict, an exception that
    [mergeMappings1To2] raises to its caller. *)
Definition MergeConflict : exn := Exception "MergeConflict".

(** The shorter of two suffixes of one list: the position of an
    iterator that has been advanced the furthest. *)
Definition furthest (it1 it2 : list triple) : list triple :=
  if decide (length it2 < length it1) then it2 else it1.

Section Strategy.
(** The collaborators defined in other modules: [evaluate tp bindings]
    is the second component of
    [EDBQuery([BuildUnitermFromTuple(tp)], self.edb, bindings).evaluate()],
    a truth value or the rows of the result; [solveGoal tp bindings]
    lists the answers of the decision procedure for a derived goal
    (the preparation of the adorned program and of the SIP collection,
    then [invokeDecisionProcedure]). *)
Context (self : store).
Context (evaluate : triple → env → bool + list env).
Context (solveGoal : triple → env → list answer).

(** [self.conjunctiveSipStrategy(goalsRemaining, factGraph, bindings)]
    run to exhaustion: the environments it yields, and what is left
    in the iterator [goalsRemaining], which the caller may share.
    [itertools.tee] gives every row its own copy of the iterator and
    advances the original as far as the furthest copy.  In the derived
    branch [mergeMappings1To2(bindings, nextAnswer)] is the argument of
    the recursive call: the only handler of the function is the one for
    [StopIteration], so a merge that fails ends the run with its
    exception. *)
Fixpoint conjunctiveSipStrategy_fuel (fuel : nat)
    (goalsRemaining : list triple) (bindings : env)
    : res (list env * list triple) :=
  match goalsRemaining with
  | [] => Ok ([bindings], [])        (* except StopIteration *)
  | tp :: rest =>
      match fuel with
      | O => Raise NonTermination
      | S fuel' =>
          match derivedPredicateFromTriple self tp with
          | None =>
              match evaluate tp bindings with
              | inl true => Ok ([bindings], rest)
              | inl false => Ok ([], rest)
              | inr rt =>
                  (* item = {}; item.update(rt[idx]);
                     item.update(bindings) *)
                  runs ← rmap (λ row,
                            conjunctiveSipStrategy_fuel fuel' rest
                              (bindings ∪ row)) rt;
                  Ok (concat (fst <$> runs),
                      foldl furthest rest (snd <$> runs))
              end
          | Some _ =>
              (fix answers (l : list answer) (it : list triple)
                 : res (list env * list triple) :=
                 match l with
                 | [] => Ok ([], it)
                 | nextAnswer :: l' =>
                     r1 ← match nextAnswer with
                          | AnsDict d =>
                              match mergeMappings1To2 bindings d with
                              | Some m =>
                                  conjunctiveSipStrategy_fuel fuel' it m
                              | None => Raise MergeConflict
                              end
                          | AnsBool true =>
                              conjunctiveSipStrategy_fuel fuel' it bindings
                          | AnsBool false => Ok ([], it)
                          end;
                     r2 ← answers l' r1.2;
                     Ok (r1.1 ++ r2.1, r2.2)
                 end) (solveGoal tp bindings) rest
          end
      end
  end.

Definition conjunctiveSipStrategy (goalsRemaining : list triple)
    (bindings : env) : res (list env * list triple) :=
  conjunctiveSipStrategy_fuel (length goalsRemaining) goalsRemaining
    bindings.

(** The store's query interface, as [batch_unify] uses it: the result
    of a SELECT over several variables is a sequence of tuples, over
    at most one variable a sequence of values.  The text of the query
    ([RDFTuplesToSPARQL], the prefix declarations) is put together by
    collaborators before [self.edb.query] is called; [select_rows] and
    [select_values] stand for the call and what precedes it. *)
Context `{TermSetOrder}.
Context (select_rows : list condition → list term → list (list term)).
Context (select_values : list condition → list term → list term).

(** [BuildUnitermFromTuple((s, p, o))] *)
Definition BuildUnitermFromTuple (t : triple) : condition :=
  let '(s, p, o) := t in Uniterm p s o false.

(** [dict([(vars[idx], i) for idx, i in enumerate(v)])] *)
Definition row_dict (vars : list term) (v : list term) : res env :=
  pairs ← rmap (λ '(idx, i),
             match vars !! idx with
             | Some k => Ok (k, i)
             | None => Raise IndexError
             end) (imap (λ idx i, (idx, i)) v);
  Ok (foldl (λ d '(k, i), <[k := i]> d) ∅ pairs).

(** A generator expression whose body may raise: the items computed
    before the first raise are yielded. *)
Fixpoint gen_map {A B} (f : A → res B) (l : list A) : gen B :=
  match l with
  | [] => gen_nil
  | x :: l' =>
      match f x with
      | Ok y => gen_seq (gen_yield y) (gen_map f l')
      | Raise e => gen_raise e
      end
  end.

(** The predicate [batch_unify] records for one pattern: the operator
    of the pattern, with the suffix when it is a hybrid predicate. *)
Definition pattern_dPred (pat : term * term * term * term) : term :=
  let '(s, p, o, g) := pat in
  let dPred := if bool_decide (p = RDF_type) then o else p in
  if bool_decide (dPred ∈ hybridPredicates self)
  then URIRef (term_str dPred +:+ "_derived")
  else if bool_decide (p = RDF_type) && truthy o then o else p.

(** [set(dPreds).intersection(self.derivedPredicates)] is not empty. *)
Definition involvesDerived (patterns : list (term * term * term * term))
    : bool :=
  existsb (λ d, bool_decide (d ∈ derivedPredicates self))
          (pattern_dPred <$> patterns).

(** The variables of the patterns, [vars] before [list(set(vars))]. *)
Definition pattern_vars (patterns : list (term * term * term * term))
    : list term :=
  concat ((λ '(s, p, o, g), List.filter isVariable [s; p; o]) <$> patterns).

(** [self.batch_unify(patterns)], run to exhaustion. *)
Definition batch_unify (patterns : list (term * term * term * term))
    : gen env :=
  let goals := (λ '(s, p, o, g), (s, p, o)) <$> patterns in
  if involvesDerived patterns then
    match conjunctiveSipStrategy goals ∅ with
    | Ok (ansDicts, _) => Gen ansDicts None
    | Raise e => gen_raise e
    end
  else
    let triples := BuildUnitermFromTuple <$> goals in
    let vars := term_order (pattern_vars patterns) in
    if decide (1 < length vars)
    then gen_map (row_dict vars) (select_rows triples vars)
    else gen_map (λ v, match vars !! 0 with
                       | Some k => Ok ({[ k := v ]} : env)
                       | None => Raise IndexError
                       end) (select_values triples vars).

End Strategy.

(** *** Rule objects and hybrid predicates *)

(** The heap of rule objects: each address holds the clause the rule
    object currently has.  Two names for one address are aliases. *)
Abbreviation heap := (gmap nat clause).

(** [copy.deepcopy(rule)]: a new object with the same content, sharing
    nothing with the original. *)
Definition deepcopy (rule : nat) (h : heap) : option (nat * heap) :=
  c ← h !! rule;
  let rule' := fresh (dom h : gset nat) in
  Some (rule', <[rule' := c]> h).

(** [list(map(copy.deepcopy, rules))] *)
Fixpoint deepcopy_all (rules : list nat) (h : heap)
    : option (list nat * heap) :=
  match rules with
  | [] => Some ([], h)
  | r :: rules' =>
      '(r', h1) ← deepcopy r h;
      '(rs', h2) ← deepcopy_all rules' h1;
      Some (r' :: rs', h2)
  end.

(** [URIRef(p + '_derived')] *)
Definition derived_name (p : term) : term :=
  URIRef (term_str p +:+ "_derived").

(** The rewriting of one condition: every literal whose operator is a
    hybrid predicate gets the suffixed operator. *)
Fixpoint replaceHybrid (hybrid : list term) (c : condition) : condition :=
  match c with
  | Exists f => Exists (replaceHybrid hybrid f)
  | And l => And (replaceHybrid hybrid <$> l)
  | Or l => Or (replaceHybrid hybrid <$> l)
  | _ =>
      match GetOp c with
      | Ok op =>
          if bool_decide (op ∈ hybrid)
          then match SetOp c (derived_name op) with
               | Ok c' => c'
               | Raise _ => c
               end
          else c
      | Raise _ => c
      end
  end.

(** Modelled from the spec: [ReplaceHybridPredcates] of FuXi.Rete.Magic
    is defined outside the two modules embedded here.  It rewrites, in
    place, every occurrence of a hybrid predicate in the rules it is
    given to the suffixed symbol. *)
Definition ReplaceHybridPredcates (rules : list nat) (hybrid : list term)
    (h : heap) : heap :=
  foldl (λ h r,
           alter (λ c, Clause (replaceHybrid hybrid (head c))
                              (replaceHybrid hybrid (body c))) r h)
        h rules.

(** Modelled from the spec: [CreateHybridPredicateRule] of
    FuXi.Rete.Magic is defined outside the two modules embedded here.
    It makes a new rule from the program it is given, the bridge
    [p_derived(X, Y) :- p(X, Y)]. *)
Definition CreateHybridPredicateRule (hybrid_predicate : term)
    (program : list nat) (h : heap) : nat * heap :=
  let rule := fresh (dom h : gset nat) in
  (rule,
   <[rule := Clause (Uniterm (derived_name hybrid_predicate)
                       (Var "X") (Var "Y") false)
                    (Uniterm hybrid_predicate (Var "X") (Var "Y") false)]> h).

(** The loop that appends one bridge rule per hybrid predicate. *)
Fixpoint appendBridges (hybrid : list term) (program new_rules : list nat)
    (h : heap) : list nat * heap :=
  match hybrid with
  | [] => (new_rules, h)
  | p :: hybrid' =>
      let '(r, h') := CreateHybridPredicateRule p program h in
      appendBridges hybrid' program (new_rules ++ [r]) h'
  end.

(** [self.hybridPredicatePreparation(nsMapping)]: the new derived
    predicates, the rules of the new [Ruleset], and the heap after the
    call. *)
Definition hybridPredicatePreparation `{TermSetOrder} (self : store)
    (h : heap) : option (list term * list nat * heap) :=
  '(new_rules, h) ← deepcopy_all (idb self) h;
  let h := ReplaceHybridPredcates new_rules (hybridPredicates self) h in
  let '(new_rules, h) :=
    appendBridges (hybridPredicates self) (idb self) new_rules h in
  let new_derived_predicates :=
    term_order
      (List.filter (λ i, bool_decide (i ∉ hybridPredicates self))
                   (derivedPredicates self)
       ++ (derived_name <$> hybridPredicates self)) in
  Some (new_derived_predicates, new_rules, h).

(** The run time used to evaluate the code on concrete inputs. *)
Definition insertionOrder : TermSetOrder :=
  {| term_order := remove_dups; term_order_perm := λ l, reflexivity _ |}.

End BackwardChainingStore.
Export BackwardChainingStore.

(** ** The rest of the store's interface *)

Module StoreInterface.

(** Modelled from the spec: the algebra of a parsed query is built by
    [RenderSPARQLAlgebra], outside the two modules embedded here.
    [getDerivedPredicates] tells three kinds of expression apart: a
    [BasicGraphPattern] with its [patterns], 4-tuples (s, p, o, func); a
    [NonSymmetricBinaryOperator] with its [left] and [right]; and
    anything else. *)
Inductive algebra :=
| BasicGraphPattern (patterns : list (term * term * term * option string))
| NonSymmetricBinaryOperator (left right : algebra)
| OtherExpression (name : string).

(** [self.getDerivedPredicates(expr, prolog)], run to exhaustion: the
    predicates it yields and, when it ends with
    [NotImplementedError(expr')], the expression [expr'] raised. *)
Fixpoint getDerivedPredicates (self : store) (expr : algebra)
    : list term * option algebra :=
  match expr with
  | BasicGraphPattern patterns =>
      (omap (λ '(s, p, o, func), derivedPredicateFromTriple self (s, p, o))
            patterns, None)
  | NonSymmetricBinaryOperator l r =>
      match getDerivedPredicates self l with
      | (terms, Some e) => (terms, Some e)
      | (terms, None) =>
          let '(terms', e) := getDerivedPredicates self r in
          (terms ++ terms', e)
      end
  | OtherExpression _ => ([], Some expr)
  end.

(** The patterns of an expression, left to right. *)
Fixpoint patterns_of (expr : algebra)
    : list (term * term * term * option string) :=
  match expr with
  | BasicGraphPattern patterns => patterns
  | NonSymmetricBinaryOperator l r => patterns_of l ++ patterns_of r
  | OtherExpression _ => []
  end.

(** The expression is made of graph patterns and binary operators only. *)
Fixpoint supported (expr : algebra) : bool :=
  match expr with
  | BasicGraphPattern _ => true
  | NonSymmetricBinaryOperator l r => supported l && supported r
  | OtherExpression _ => false
  end.

(** Modelled from the spec: [Uniterm.setOperator] and [Uniterm.toRDFTuple]
    of FuXi.Horn.PositiveConditions are defined outside the two modules
    embedded here.  [setOperator] replaces the predicate symbol of the
    uniterm, the class of an [rdf:type] literal or else the operator, as
    [SetOp] does; [toRDFTuple] gives back (subject, op, object). *)
Definition setOperator (lit : condition) (newOp : term) : condition :=
  match lit with
  | Uniterm op arg0 arg1 naf =>
      if bool_decide (op = RDF_type)
      then Uniterm op arg0 newOp naf
      else Uniterm newOp arg0 arg1 naf
  | _ => lit
  end.

Definition toRDFTuple (lit : condition) : triple :=
  match lit with
  | Uniterm op arg0 arg1 _ => (arg0, op, arg1)
  | N3Builtin uri argument result => (argument, uri, result)
  | _ => (RDF_nil, RDF_nil, RDF_nil)
  end.

(** [self.hybridPredQueryPreparation(tp)] *)
Definition hybridPredQueryPreparation (self : store) (tp : triple)
    : res triple :=
  let lit := BuildUnitermFromTuple tp in
  op ← GetOp lit;
  if bool_decide (op ∈ hybridPredicates self)
  then Ok (toRDFTuple (setOperator lit (derived_name op)))
  else Ok tp.

(** The store after [__init__] has taken over the result of
    [hybridPredicatePreparation]:
    [self.idb = new_rules; self.derivedPredicates = d_predicates]. *)
Definition with_prepared (self : store) (d_predicates : list term)
    (new_rules : list nat) : store :=
  Store d_predicates (hybridPredicates self) new_rules.

(** The namespace bindings of the store: a [dict] from prefixes to
    namespaces.  [items_order] is the order in which [dict.items()]
    lists it, which the source does not fix. *)
Abbreviation nsDict := (gmap string term).

Class DictOrder := {
  items_order : nsDict → list (string * term);
  items_order_perm : ∀ d, items_order d ≡ₚ map_to_list d
}.

(** [self.bind(prefix, namespace)] *)
Definition bind (nsBindings : nsDict) (prefix : string) (namespace : term)
    : nsDict :=
  <[prefix := namespace]> nsBindings.

(** [dict([(v, k) for k, v in pairs])]: a later pair replaces an earlier
    one with the same [v]. *)
Definition revDict (pairs : list (string * term)) : gmap term string :=
  foldl (λ d '(k, v), <[v := k]> d) ∅ pairs.

(** [self.prefix(namespace)] *)
Definition prefix `{DictOrder} (nsBindings : nsDict) (namespace : term)
    : option string :=
  revDict (items_order nsBindings) !! namespace.

(** [self.namespace(prefix)] *)
Definition namespace (nsBindings : nsDict) (prefix : string) : option term :=
  nsBindings !! prefix.

(** [self.namespaces()], run to exhaustion. *)
Definition namespaces `{DictOrder} (nsBindings : nsDict)
    : list (string * term) :=
  items_order nsBindings.

(** The run time used to evaluate the code on concrete inputs. *)
Definition keyOrder : DictOrder :=
  {| items_order := map_to_list; items_order_perm := λ d, reflexivity _ |}.

End StoreInterface.
Export StoreInterface.

(** ** Concrete clauses used to run the code *)

Module Examples.

Definition ex (name : string) : term := URIRef ("http://example.org/" +:+ name).

(** The atom [p(?a, ?b)]. *)
Definition atom (p a b : string) : condition :=
  Uniterm (ex p) (Var a) (Var b) false.


(** [sg(X,Y) :- up(X,Z1), sg(Z1,Z2), flat(Z2,Z3), sg(Z3,Z4), down(Z4,Y)] *)
Definition sg_head : condition := atom "sg" "X" "Y".
Definition sg_body : list condition :=
  [atom "up" "X" "Z1"; atom "sg" "Z1" "Z2"; atom "flat" "Z2" "Z3";
   atom "sg" "Z3" "Z4"; atom "down" "Z4" "Y"].
Definition sg_rule : clause := Clause sg_head (And sg_body).

(** The head adornments [ff] and [bf] of [sg(X,Y)]. *)
Definition sg_ff : adorned := Adorned true ["f"; "f"] [].
Definition sg_bf : adorned := Adorned true ["b"; "f"] [Var "X"].


(** Two atoms of one body whose variable names contain underscores. *)
Definition p_ab_c : condition := atom "p" "a_b" "c".
Definition p_a_bc : condition := atom "p" "a" "b_c".

(** A store without derived or hybrid predicates, a row that binds [X]
    to [a] and an environment that binds it to [b]. *)
Definition base_store : store := Store [] [] [].
Definition row_a : env := {[ Var "X" := ex "a" ]}.
Definition env_b : env := {[ Var "X" := ex "b" ]}.
Definition goal_p : triple := (Var "X", ex "p", ex "o").

(** A store in which [p] is a hybrid predicate, with one rule
    [p(X,Y) :- And(q(X,Y), p(Y,X))] at address [0] of the heap. *)
Definition hybrid_store : store := Store [ex "p"] [ex "p"] [0].
Definition p_rule : clause :=
  Clause (atom "p" "X" "Y") (And [atom "q" "X" "Y"; atom "p" "Y" "X"]).
Definition hybrid_heap : heap := {[ 0 := p_rule ]}.

(** A fully ground pattern over a base predicate, in the default graph. *)
Definition ground_pattern : term * term * term * term :=
  (ex "a", ex "up", ex "b", ex "g").

(** A graph whose only triple types [sg] as a bound head predicate. *)
Definition boundHeadOnly : gset triple :=
  {[ (ex "sg", RDF_type, MAGIC_BoundHeadPredicate) ]}.

(** The graph that holds one arc from [up] to the occurrence [sg_Z1_Z2],
    with the given bindings. *)
Definition oneArc (variables : list term) : gset triple :=
  graph (SIPGraphArc "http://example.org/skolem#" (ex "up") (ex "sg_Z1_Z2")
           variables false (St ∅ 0)).2.

(** The store after that arc has been written, and the arc's name. *)
Definition oneArcState (variables : list term) : st :=
  (SIPGraphArc "http://example.org/skolem#" (ex "up") (ex "sg_Z1_Z2")
     variables false (St ∅ 0)).2.
Definition arc0 : term := URIRef "http://example.org/skolem#N0".

(** The lookup table that records [sg] as the operator of [sg_Z1_Z2]. *)
Definition sg_lookup : gmap term term := {[ ex "sg_Z1_Z2" := ex "sg" ]}.



(** A store in which [sg] is a derived predicate, a goal over it, and a
    base goal that comes after it. *)
Definition derived_store : store := Store [ex "sg"] [] [].
Definition goal_sg : triple := (Var "X", ex "sg", Var "Y").
Definition goal_q : triple := (Var "Y", ex "q", Var "Z").
Definition row_z : env := {[ Var "Z" := ex "c" ]}.

End Examples.
Export Examples.

(** * Properties *)

(** ** Generators and results *)

Lemma filter_none {A} (p : A → bool) (l : list A) :
  (∀ x, x ∈ l → p x = false) → List.filter p l = [].
Proof.
  induction l as [|x l IH]; intros Hp; [done|].
  simpl. rewrite (Hp x) by left. apply IH. intros y Hy. apply Hp. by right.
Qed.

Lemma filter_nil_inv {A} (p : A → bool) (l : list A) x :
  List.filter p l = [] → x ∈ l → p x = false.
Proof.
  induction l as [|y l IH]; intros Hf Hx; [by apply elem_of_nil in Hx|].
  simpl in Hf. destruct (p y) eqn:Hy; [done|].
  apply elem_of_cons in Hx as [->|Hx]; auto.
Qed.

(** ** The graph never holds an arc *)

Lemma arcless_sip_arcs g : arcless g → sip_arcs g = [].
Proof.
  intros Hg. apply filter_none. intros t _.
  apply bool_decide_eq_false, Hg.
Qed.

Lemma arcless_empty : arcless ∅.
Proof. intros s. set_solver. Qed.

Lemma arcless_add t g :
  t.2 ≠ MAGIC_SipArc ∨ t.1.2 ≠ RDF_type → arcless g → arcless (graph_add t g).
Proof.
  intros Ht Hg s. unfold graph_add. rewrite elem_of_union, elem_of_singleton.
  intros [<-|Hin]; [|by apply (Hg s)]. simpl in Ht. by destruct Ht.
Qed.

Lemma arcless_remove pat g : arcless g → arcless (graph_remove pat g).
Proof.
  intros Hg s. unfold graph_remove. rewrite elem_of_filter.
  intros [_ Hin]. by apply (Hg s).
Qed.

Lemma arcless_append uri item s :
  arcless (graph s) → arcless (graph (Collection_append uri item s).2).
Proof.
  intros Hs. unfold Collection_append.
  destruct (Collection_end _ _ _) as [last|e]; [|done].
  case_bool_decide; simpl;
    repeat first [apply arcless_add; [by right|] | apply arcless_remove];
    done.
Qed.

Lemma arcless_extend uri items s :
  arcless (graph s) → arcless (graph (Collection_extend uri items s).2).
Proof.
  revert s. induction items as [|i items IH]; intros s Hs; [done|].
  simpl. pose proof (arcless_append uri i s Hs) as Ha.
  destruct (Collection_append uri i s) as [[[]|e] s']; simpl in *; auto.
Qed.

Section Arcless.
Context `{PyRuntime}.
Context (phBoundVars : list term) (ignoreUnboundDPreds boundHead : bool).

Lemma arcless_collectSip left right s :
  arcless (graph s) →
  arcless (graph (collectSip phBoundVars ignoreUnboundDPreds boundHead
                    left right s).2).
Proof.
  intros Hs. unfold collectSip. destruct left as [o|l].
  - destruct (CollectSIPArcVars _ _ _) as [vars|e]; [|done].
    destruct (negb (nonempty vars) && ignoreUnboundDPreds); [done|].
    destruct (GetOp _) as [ph|e]; [|done].
    destruct boundHead; [|done]. simpl.
    apply arcless_add; [by left|done].
  - destruct (CollectSIPArcVars _ _ _) as [vars|e]; [|done].
    destruct (negb (nonempty vars) && ignoreUnboundDPreds); [done|].
    simpl. destruct (rmap _ _) as [ops|e]; [|done].
    pose proof (arcless_extend
      (BNode ("N" +:+ pretty (next_bnode s))) ops
      (St (graph s) (S (next_bnode s))) Hs) as He.
    destruct (Collection_extend _ _ _) as [[[]|e] s']; done.
Qed.

Lemma arcless_reduce_from left items s :
  arcless (graph s) →
  arcless (graph (reduce_from
                    (collectSip phBoundVars ignoreUnboundDPreds boundHead)
                    left items s).2).
Proof.
  revert left s. induction items as [|r items IH]; intros left s Hs; [done|].
  simpl. pose proof (arcless_collectSip left r s Hs) as Hc.
  destruct (collectSip _ _ _ _ _ _) as [[left'|e] s']; simpl in *; auto.
Qed.

Lemma arcless_reduce items s :
  arcless (graph s) →
  arcless (graph (reduce
                    (collectSip phBoundVars ignoreUnboundDPreds boundHead)
                    items s).2).
Proof.
  intros Hs. destruct items as [|x items]; [done|].
  by apply arcless_reduce_from.
Qed.

Lemma arcless_firstFoldingSip sips stop s :
  arcless (graph s) →
  arcless (graph (firstFoldingSip phBoundVars ignoreUnboundDPreds boundHead
                    sips stop s).2).
Proof.
  revert s. induction sips as [|sip sips IH]; intros s Hs; [done|].
  simpl. pose proof (arcless_reduce (obj <$> iterCondition (And sip)) s Hs) as Hf.
  unfold foldOrder.
  destruct (reduce _ _ _) as [[a|e] s']; simpl in *; [done|].
  destruct e; auto.
Qed.

Lemma arcless_chooseBodyOrder head formulae s :
  arcless (graph s) →
  arcless (graph (chooseBodyOrder phBoundVars ignoreUnboundDPreds boundHead
                    head formulae s).2).
Proof.
  intros Hs. unfold chooseBodyOrder.
  destruct ignoreUnboundDPreds eqn:Hi.
  - rewrite <- Hi. by apply arcless_firstFoldingSip.
  - match goal with
    | |- context [match ?found with _ => _ end] =>
        destruct found as [[[|o order]|]|e]; try done
    end.
    pose proof (arcless_reduce (obj <$> iterCondition (And (o :: order))) s Hs)
      as Hf.
    rewrite Hi in Hf. unfold foldOrder.
    destruct (reduce _ _ _) as [[a|e] s']; done.
Qed.

End Arcless.

(** The generalization leaves a graph without arcs as it is. *)
Lemma generalizeSip_arcless occurLookup derivedPreds hybridPreds2Replace s :
  arcless (graph s) →
  generalizeSip occurLookup derivedPreds hybridPreds2Replace s = (Ok (), s).
Proof.
  intros Hs. unfold generalizeSip. rewrite (arcless_sip_arcs _ Hs). simpl.
  by destruct s.
Qed.

(** Whatever the clause and the options, the graph [BuildNaturalSIP]
    returns holds no arc: nothing in it is typed [magic:SipArc]. *)
Lemma BuildNaturalSIP_arcless `{PyRuntime} clause derivedPreds adornedHead
    hybridPreds2Replace ignoreUnboundDPreds g :
  BuildNaturalSIP clause derivedPreds adornedHead hybridPreds2Replace
    ignoreUnboundDPreds = Ok g →
  arcless (triples g).
Proof.
  unfold BuildNaturalSIP.
  set (boundHead := isBoundHead adornedHead).
  set (ph := distinguished adornedHead).
  assert (∀ b : res condition * st, arcless (graph b.2) →
    match b with
    | (Raise e, _) => Raise e
    | (Ok order, s) =>
        if nonnil derivedPreds then
          match generalizeSip ∅ derivedPreds hybridPreds2Replace s with
          | (Ok _, s') => Ok (SIPGraph (graph s') order)
          | (Raise e, _) => Raise e
          end
        else Ok (SIPGraph (graph s) order)
    end = Ok g → arcless (triples g)) as Hfin.
  { intros [[order|e] s] Hs; simpl in *; [|done].
    rewrite generalizeSip_arcless by done.
    destruct (nonnil derivedPreds); by intros [= <-]. }
  intros Hb. eapply Hfin; [|exact Hb]. clear Hb Hfin.
  destruct (body clause) as [| | |formulae|] eqn:Hbody;
    try (destruct boundHead eqn:Hbh; simpl; [|apply arcless_empty];
         match goal with
         | |- context [reduce ?f ?items ?s] =>
             pose proof (arcless_reduce ph ignoreUnboundDPreds true items s
                           arcless_empty) as Hr;
             destruct (reduce f items s) as [[a|e] s']; exact Hr
         end).
  pose proof (arcless_chooseBodyOrder ph ignoreUnboundDPreds boundHead
                (head clause) formulae (St ∅ 0) arcless_empty) as Hc.
  destruct (chooseBodyOrder _ _ _ _ _ _) as [[order|e] s']; exact Hc.
Qed.

(** ** What an arc is: the triples [SIPGraphArc] writes *)

Lemma elem_of_filter_bool {A} (p : A → bool) (l : list A) x :
  x ∈ List.filter p l ↔ p x = true ∧ x ∈ l.
Proof.
  rewrite !list_elem_of_In, filter_In. tauto.
Qed.

Lemma elem_of_sip_arcs g N prop q :
  (N, prop, q) ∈ sip_arcs g ↔
  (prop, RDF_type, MAGIC_SipArc) ∈ g ∧ (N, prop, q) ∈ g.
Proof.
  unfold sip_arcs. rewrite elem_of_filter_bool, elem_of_elements.
  simpl. by rewrite bool_decide_eq_true.
Qed.

(** Appending to a collection removes no triple other than [rdf:rest]
    links. *)
Lemma remove_keeps pat g (t : triple) :
  matches pat t = false → t ∈ g → t ∈ graph_remove pat g.
Proof. intros Hm Hin. unfold graph_remove. by apply elem_of_filter. Qed.

Lemma add_keeps t' g (t : triple) : t ∈ g → t ∈ graph_add t' g.
Proof. unfold graph_add. set_solver. Qed.

Lemma append_keeps uri item s t :
  t.1.2 ≠ RDF_rest → t ∈ graph s → t ∈ graph (Collection_append uri item s).2.
Proof.
  intros Ht Hin. unfold Collection_append.
  destruct (Collection_end _ _ _) as [last|e]; [|done].
  case_bool_decide; simpl; repeat apply add_keeps; [|done].
  apply remove_keeps; [|done].
  destruct t as [[s0 p0] o0]. simpl in *.
  apply andb_false_iff. left. apply andb_false_iff. right.
  apply bool_decide_eq_false. congruence.
Qed.

Lemma extend_keeps uri items s t :
  t.1.2 ≠ RDF_rest → t ∈ graph s → t ∈ graph (Collection_extend uri items s).2.
Proof.
  intros Ht. revert s. induction items as [|i items IH]; intros s Hin; [done|].
  simpl. pose proof (append_keeps uri i s t Ht Hin) as Ha.
  destruct (Collection_append uri i s) as [[[]|e] s']; simpl in *; auto.
Qed.

(** The constructor of [SIPGraphArc] does add an arc from [left] to
    [right]: the query for arcs finds it in the graph. *)
Lemma SIPGraphArc_adds_arc skolem_ns left right variables headPassing s arc s' :
  SIPGraphArc skolem_ns left right variables headPassing s = (Ok arc, s') →
  (left, arc, right) ∈ sip_arcs (graph s').
Proof.
  unfold SIPGraphArc. simpl.
  set (a := URIRef (skolem_ns +:+ "N" +:+ pretty (next_bnode s))).
  set (s0 := St (graph_add (a, RDF_type, MAGIC_SipArc) (graph s)) _).
  pose proof (extend_keeps (BNode ("N" +:+ pretty (S (next_bnode s))))
                variables s0 (a, RDF_type, MAGIC_SipArc)) as Hk.
  destruct (Collection_extend _ variables s0) as [[[]|e] s1]; [|done].
  intros [= <- <-]. simpl in *.
  apply elem_of_sip_arcs. split.
  - do 2 apply add_keeps. apply Hk; [done|]. unfold graph_add. set_solver.
  - unfold graph_add. set_solver.
Qed.

(** ** Claims about [SidewaysInformationPassing.py] *)

(** C1 (the code departs from the claim).  For the same-generation rule
    [sg(X,Y) :- up(X,Z1), sg(Z1,Z2), flat(Z2,Z3), sg(Z3,Z4), down(Z4,Y)]
    with head adornment [ff], [BuildNaturalSIP] returns a graph with no
    triple at all, hence with no arc: neither [{up} --Z1--> sg] nor
    [{up, sg, flat} --Z3--> sg] is in it, and its [sipOrder] is the empty
    conjunction.  For [sg(X,Y) :- And(flat(X,Y))] with head adornment
    [bf], where [collectSip] is called on the pair (head, [flat]), the
    graph has one triple, the type of the bound head predicate, and no
    arc either. *)
Theorem BuildNaturalSIP_sg_has_no_arc :
  match @BuildNaturalSIP structuralRuntime sg_rule [] sg_ff None false with
  | Ok g =>
      sip_arcs (triples g) = [] ∧ size (triples g) = 0 ∧ sipOrder g = And []
  | Raise _ => False
  end
  ∧ match @BuildNaturalSIP structuralRuntime
            (Clause sg_head (And [atom "flat" "X" "Y"])) [] sg_bf None false
    with
    | Ok g =>
        sip_arcs (triples g) = [] ∧ size (triples g) = 1
        ∧ sipOrder g = And [atom "flat" "X" "Y"]
    | Raise _ => False
    end.
Proof. by vm_compute. Qed.

(** *** The search for orderings *)

Lemma gen_for_yields {A B} (P : B → Prop) (l : list A) (body : A → gen B) :
  (∀ x, x ∈ l → Forall P (yields (body x))) →
  Forall P (yields (gen_for l body)).
Proof.
  induction l as [|x l IH]; intros Hb; [constructor|].
  simpl. unfold gen_seq.
  destruct (stop (body x)); [apply Hb; by left|]. simpl.
  apply Forall_app. split; [apply Hb; by left|].
  apply IH. intros y Hy. apply Hb. by right.
Qed.

Lemma gen_for_stop {A B} (Q : exn → Prop) (l : list A) (body : A → gen B) :
  (∀ x e, x ∈ l → stop (body x) = Some e → Q e) →
  ∀ e, stop (gen_for l body) = Some e → Q e.
Proof.
  induction l as [|x l IH]; intros Hb e; [done|].
  simpl. unfold gen_seq.
  destruct (stop (body x)) as [e'|] eqn:Hx.
  - rewrite Hx. intros [= <-]. eapply Hb; [by left|done].
  - simpl. apply IH. intros y e0 Hy. apply Hb. by right.
Qed.

(** One step of [findFullSip]. *)
Lemma findFullSip_fuel_unfold `{PyRuntime} fuel rt vars right :
  findFullSip_fuel fuel rt vars right =
  match match vars with
        | Some v => if nonempty v then Ok v else initial_vars rt
        | None => initial_vars rt
        end with
  | Raise e => gen_raise e
  | Ok vars =>
      match seq_items right with
      | [r0] =>
          match GetArgs r0 true with
          | Raise e => gen_raise e
          | Ok args =>
              if nonempty (list_to_set args ∩ vars) then
                gen_yield (if isAnd right then rt ++ seq_items right
                           else seq_items right)
              else gen_nil
          end
      | items =>
          gen_for items (λ item,
            match GetArgs item true with
            | Raise e => gen_raise e
            | Ok args =>
                let _vars : gset term :=
                  list_to_set (List.filter isVariableOrBNode args) in
                if nonempty (_vars ∩ vars) then
                  match fuel with
                  | O => gen_raise NonTermination
                  | S fuel' =>
                      findFullSip_fuel fuel' (rt ++ [item])
                        (Some (vars ∪ (_vars ∖ vars)))
                        (ListSeq (List.filter (λ i, cond_neq i item) items))
                  end
                else gen_nil
            end)
      end
  end.
Proof. destruct fuel; reflexivity. Qed.

(** On a plain list every ordering [findFullSip] yields is a list of one
    literal: the prefix never reaches the caller. *)
Lemma findFullSip_list_yields_one_literal `{PyRuntime} fuel rt vars items :
  Forall (λ o : list condition, length o = 1)
    (yields (findFullSip_fuel fuel rt vars (ListSeq items))).
Proof.
  revert rt vars items. induction fuel as [|fuel IH]; intros rt vars items;
    rewrite findFullSip_fuel_unfold;
    (destruct (match vars with Some _ => _ | None => _ end);
       [|constructor]);
    cbn [seq_items isAnd];
    (destruct items as [|r0 [|r1 items]];
       [constructor
       |destruct (GetArgs r0 true); [|constructor];
        destruct (nonempty _); repeat constructor
       |]);
    apply gen_for_yields; intros item _;
    (destruct (GetArgs item true); [|constructor]);
    cbv zeta; (destruct (nonempty _); [|constructor]).
  - constructor.
  - apply IH.
Qed.

(** So does the search on an [And] body of two literals or more. *)
Lemma findFullSip_And_yields_one_literal `{PyRuntime} rt vars r0 r1 formulae :
  Forall (λ o : list condition, length o = 1)
    (yields (findFullSip (rt, vars) (AndSeq (r0 :: r1 :: formulae)))).
Proof.
  unfold findFullSip. rewrite findFullSip_fuel_unfold.
  destruct (match _ with Some _ => _ | None => _ end); [|constructor].
  cbn [seq_items length]. apply gen_for_yields. intros item _.
  destruct (GetArgs item true); [|constructor].
  cbv zeta. destruct (nonempty _); [|constructor].
  apply findFullSip_list_yields_one_literal.
Qed.

Lemma GetArgs_raises t secondOrder e :
  GetArgs t secondOrder = Raise e → e = TypeError.
Proof.
  induction t as [u a r|op a0 a1 naf|f IH|fs|fs]; simpl; try done.
  - repeat case_match; done.
  - by intros [= <-].
  - by intros [= <-].
Qed.

Lemma initial_vars_raises rt e : initial_vars rt = Raise e → e = TypeError.
Proof.
  destruct rt as [|l [|r [|x rt]]]; simpl; try by intros [= <-].
  - destruct (GetArgs l true) eqn:Hl; simpl; [done|].
    intros [= <-]. by eapply GetArgs_raises.
  - destruct (GetArgs l true) eqn:Hl; simpl.
    + destruct (GetArgs r true) eqn:Hr; simpl; [done|].
      intros [= <-]. by eapply GetArgs_raises.
    + intros [= <-]. by eapply GetArgs_raises.
Qed.

Lemma filter_length_lt {A} (p : A → bool) (l : list A) x :
  x ∈ l → p x = false → length (List.filter p l) < length l.
Proof.
  induction l as [|y l IH]; intros Hx Hp; [by apply elem_of_nil in Hx|].
  simpl. pose proof (filter_length_le p l) as Hle.
  apply elem_of_cons in Hx as [<-|Hx].
  - rewrite Hp. lia.
  - specialize (IH Hx Hp). destruct (p y); simpl; lia.
Qed.

(** The search ends: when no condition differs from itself, the depth of
    the recursion is bounded by the number of literals to order. *)
Lemma findFullSip_fuel_terminates `{PyRuntime} fuel rt vars right :
  (∀ c, cond_neq c c = false) →
  length (seq_items right) ≤ fuel →
  stop (findFullSip_fuel fuel rt vars right) ≠ Some NonTermination.
Proof.
  intros Hrefl. revert rt vars right.
  induction fuel as [|fuel IH]; intros rt vars right Hlen;
    rewrite findFullSip_fuel_unfold;
    (destruct (match vars with Some _ => _ | None => _ end) as [v|e] eqn:Hv;
       [|simpl; intros [= ->];
         destruct vars as [v|]; [destruct (nonempty v); [done|]|];
         by apply initial_vars_raises in Hv]);
    (destruct (seq_items right) as [|r0 [|r1 items]] eqn:Hitems;
       [done
       |destruct (GetArgs r0 true) as [args|e] eqn:Ha;
          [by destruct (nonempty _)
          |simpl; intros [= ->]; by apply GetArgs_raises in Ha]
       |]);
    simpl in Hlen; try lia.
  intros Hstop.
  apply (gen_for_stop (λ e, e ≠ NonTermination)) in Hstop; [done|].
  intros item e Hin.
  destruct (GetArgs item true) as [args|e'] eqn:Ha.
  - cbv zeta. destruct (nonempty _); [|done].
    intros Hrec ->. revert Hrec. apply IH. cbn [seq_items].
    pose proof (filter_length_lt (λ i, cond_neq i item)
                  (r0 :: r1 :: items) item Hin (Hrefl item)) as Hlt.
    cbn [length] in Hlt. lia.
  - simpl. intros [= <-] ->. by apply GetArgs_raises in Ha.
Qed.

Lemma condition_eqb_refl c : condition_eqb c c = true.
Proof.
  revert c. fix refl 1.
  intros [u a r|op a0 a1 naf|f|fs|fs]; simpl.
  - by rewrite !bool_decide_eq_true_2.
  - by rewrite !bool_decide_eq_true_2.
  - apply refl.
  - induction fs as [|x fs IH]; [reflexivity|].
    rewrite refl. exact IH.
  - induction fs as [|x fs IH]; [reflexivity|].
    rewrite refl. exact IH.
Qed.

(** With structural comparison the search always ends. *)
Lemma findFullSip_structural_terminates rt vars right :
  stop (@findFullSip structuralRuntime (rt, vars) right) ≠ Some NonTermination.
Proof.
  apply (@findFullSip_fuel_terminates structuralRuntime); [|done].
  intros c. simpl. by rewrite condition_eqb_refl.
Qed.

(** The base case of [findFullSip] on a plain list: the prefix [rt] is
    dropped from what is yielded. *)
Lemma findFullSip_base_list `{PyRuntime} fuel rt vars r args :
  nonempty vars = true →
  GetArgs r true = Ok args →
  nonempty (list_to_set args ∩ vars) = true →
  findFullSip_fuel fuel rt (Some vars) (ListSeq [r]) = gen_yield [r].
Proof.
  intros Hv Ha Hi. destruct fuel; simpl; by rewrite Hv, Ha, Hi.
Qed.

(** The base case of [findFullSip] on an [And]: the prefix comes first. *)
Lemma findFullSip_base_And `{PyRuntime} fuel rt vars r args :
  nonempty vars = true →
  GetArgs r true = Ok args →
  nonempty (list_to_set args ∩ vars) = true →
  findFullSip_fuel fuel rt (Some vars) (AndSeq [r]) = gen_yield (rt ++ [r]).
Proof.
  intros Hv Ha Hi. destruct fuel; simpl; by rewrite Hv, Ha, Hi.
Qed.

(** C2 (the code departs from the claim).  For the body
    [And(up(X,Z1), down(Z1,Y))] under the head [sg(X,Y)], the search
    reaches its base case twice, each time on a plain list of one
    literal, and yields that one-literal list alone: the orderings are
    [[down(Z1,Y)]] and [[up(X,Z1)]], not the head followed by the two
    body literals. *)
Theorem findFullSip_yields_last_literal_only :
  @findFullSip structuralRuntime ([sg_head], None)
    (AndSeq [atom "up" "X" "Z1"; atom "down" "Z1" "Y"])
  = Gen [[atom "down" "Z1" "Y"]; [atom "up" "X" "Z1"]] None.
Proof. by vm_compute. Qed.

(** The drop test of the generalization never fires when
    [hybridPreds2Replace] is [None] or empty: the conditional expression
    is then [False]. *)
Lemma dropsArc_without_hybrid derivedPreds op :
  dropsArc derivedPreds None op = false
  ∧ dropsArc derivedPreds (Some []) op = false.
Proof. unfold dropsArc. by rewrite !andb_false_r. Qed.

(** With [hybridPreds2Replace] [None] or empty the generalization never
    changes the graph, whatever [derivedPreds] is: it ends normally or,
    when the destination of some arc is not in [occurLookup], with a
    [KeyError]. *)
Lemma generalizeSip_without_hybrid occurLookup derivedPreds hybrid s :
  hybrid = None ∨ hybrid = Some [] →
  generalizeSip occurLookup derivedPreds hybrid s = (Ok (), s)
  ∨ generalizeSip occurLookup derivedPreds hybrid s = (Raise KeyError, s).
Proof.
  intros Hh. unfold generalizeSip.
  assert (∀ arcs,
            arcsToDrop occurLookup derivedPreds hybrid arcs s = (Ok ([], []), s)
            ∨ arcsToDrop occurLookup derivedPreds hybrid arcs s
              = (Raise KeyError, s)) as Hdrop.
  { induction arcs as [|[[N prop] q] arcs IH]; simpl; [by left|].
    destruct (occurLookup !! q) as [op|]; [|by right].
    assert (dropsArc derivedPreds hybrid op = false) as ->; [|done].
    destruct Hh as [-> | ->]; apply dropsArc_without_hybrid. }
  destruct (Hdrop (sip_arcs (graph s))) as [-> | ->]; [left|by right].
  simpl. by destruct s.
Qed.

(** Taken by itself, the generalization therefore keeps an arc into any
    predicate, derived or not, when it is given no hybrid predicates. *)
Lemma generalizeSip_without_hybrid_keeps_arc skolem_ns left right variables
    headPassing s arc s1 occurLookup derivedPreds r s2 :
  SIPGraphArc skolem_ns left right variables headPassing s = (Ok arc, s1) →
  generalizeSip occurLookup derivedPreds None s1 = (r, s2) →
  (left, arc, right) ∈ sip_arcs (graph s2).
Proof.
  intros Harc Hgen. apply SIPGraphArc_adds_arc in Harc.
  destruct (generalizeSip_without_hybrid occurLookup derivedPreds None s1)
    as [Hs | Hs]; [by left|..]; rewrite Hs in Hgen; by injection Hgen as _ <-.
Qed.




(** C5 (counterexample).  A graph whose only triple types a bound head
    predicate has no arc, and [validSip] returns [True] for it. *)
Lemma validSip_without_arcs :
  validSip boundHeadOnly = true ∧ sip_arcs boundHeadOnly = [].
Proof. by vm_compute. Qed.

(** C7 (the code departs from the claim).  [SetOp] succeeds on a builtin
    and on a uniterm, and on an existential wrapper it raises, whatever
    the wrapped formula, while [GetOp] and [GetArgs] delegate to the
    wrapped formula. *)
Theorem SetOp_Exists_raises formula value secondOrder uri argument result
    op arg0 arg1 naf :
  SetOp (Exists formula) value = Raise (Exception "SetOp unable to set op")
  ∧ GetOp (Exists formula) = GetOp formula
  ∧ GetArgs (Exists formula) secondOrder = GetArgs formula secondOrder
  ∧ is_ok (SetOp (N3Builtin uri argument result) value) = true
  ∧ is_ok (SetOp (Uniterm op arg0 arg1 naf) value) = true.
Proof.
  repeat split. simpl. by case_bool_decide.
Qed.

(** ** [validSip] *)

Lemma matches_sp s p (t : triple) :
  matches (Some s, Some p, None) t = true ↔ t.1.1 = s ∧ t.1.2 = p.
Proof.
  destruct t as [[s0 p0] o0]. simpl.
  rewrite andb_true_r, andb_true_iff, !bool_decide_eq_true. split.
  - by intros [-> ->].
  - by intros [-> ->].
Qed.

Lemma elem_of_graph_objects s p g o :
  o ∈ graph_objects s p g ↔ (s, p, o) ∈ g.
Proof.
  unfold graph_objects. rewrite list_elem_of_fmap. split.
  - intros ([[s0 p0] o0] & -> & Hin).
    apply elem_of_filter_bool in Hin as [Hm Hin].
    apply matches_sp in Hm as [<- <-]. by apply elem_of_elements in Hin.
  - intros Hin. exists (s, p, o). split; [done|].
    apply elem_of_filter_bool. split; [by apply matches_sp|].
    by apply elem_of_elements.
Qed.

Lemma graph_objects_nil s p g :
  graph_objects s p g = [] ↔ ∀ o, (s, p, o) ∉ g.
Proof.
  split.
  - intros Hnil o Hin. apply elem_of_graph_objects in Hin.
    rewrite Hnil in Hin. by apply elem_of_nil in Hin.
  - intros Hno. destruct (graph_objects s p g) as [|o l] eqn:Ho; [done|].
    exfalso. apply (Hno o), elem_of_graph_objects. rewrite Ho. by left.
Qed.

Lemma arcs_without_bindings_nil g :
  arcs_without_bindings g = [] ↔
  ∀ arc b, (arc, MAGIC_bindings, b) ∈ g → ∃ v, (b, RDF_first, v) ∈ g.
Proof.
  unfold arcs_without_bindings. split.
  - intros Hnil arc b Hin. apply fmap_nil_inv in Hnil.
    pose proof (filter_nil_inv _ _ (arc, MAGIC_bindings, b) Hnil) as Hp.
    rewrite elem_of_elements in Hp. specialize (Hp Hin). simpl in Hp.
    rewrite ?bool_decide_eq_true_2 in Hp by done. simpl in Hp.
    apply bool_decide_eq_false in Hp.
    destruct (graph_objects b RDF_first g) as [|v l] eqn:Hv; [done|].
    exists v. apply elem_of_graph_objects. rewrite Hv. by left.
  - intros Hall. rewrite filter_none; [done|]. intros [[arc p] b] Hin.
    apply elem_of_elements in Hin. simpl.
    case_bool_decide as Hp; [|done]. subst p. simpl.
    apply bool_decide_eq_false. intros Hnil.
    destruct (Hall arc b Hin) as [v Hv].
    by apply (proj1 (graph_objects_nil _ _ _) Hnil v).
Qed.

(** A graph with one arc is valid when the arc has a binding, and is
    not when its bindings list is empty. *)
Lemma validSip_one_arc :
  validSip (oneArc [Var "Z1"]) = true ∧ validSip (oneArc []) = false.
Proof. by vm_compute. Qed.

(** C5 (as amended).  [validSip(G)] is [True] exactly when [G] holds at
    least one triple, of any kind, and every node that a
    [magic:bindings] triple points to is a list with a first element. *)
Theorem validSip_spec g :
  validSip g = true ↔
  g ≠ ∅ ∧ ∀ arc b, (arc, MAGIC_bindings, b) ∈ g → ∃ v, (b, RDF_first, v) ∈ g.
Proof.
  unfold validSip. rewrite <- arcs_without_bindings_nil.
  case_bool_decide as Hsz.
  - apply size_empty_iff in Hsz. apply leibniz_equiv in Hsz.
    split; [done|]. by intros [Hne _].
  - assert (g ≠ ∅) as Hne.
    { intros ->. by rewrite size_empty in Hsz. }
    destruct (arcs_without_bindings g); split; try done. by intros [_ ?].
Qed.

(** ** The choice of the body ordering *)


Section Choice.
Context `{PyRuntime}.
Context (phBoundVars : list term) (ignoreUnboundDPreds boundHead : bool).

Local Abbreviation fold :=
  (foldOrder phBoundVars ignoreUnboundDPreds boundHead).
Local Abbreviation skipped :=
  (skipped phBoundVars ignoreUnboundDPreds boundHead).

Lemma firstFoldingSip_split sips stop s order s' :
  firstFoldingSip phBoundVars ignoreUnboundDPreds boundHead sips stop s
  = (Ok order, s') →
  ∃ before after,
    sips = before ++ order :: after
    ∧ Forall skipped before
    ∧ ∃ s1 a, fold order s1 = (Ok a, s').
Proof.
  revert s. induction sips as [|sip sips IH]; intros s; [done|].
  simpl. destruct (foldOrder _ _ _ sip s) as [[a|e] s1] eqn:Hf.
  - intros [= -> ->]. exists [], sips. repeat split; [done|by eauto].
  - destruct e; try done. intros Hrec.
    destruct (IH _ Hrec) as (before & after & -> & Hb & Hok).
    exists (sip :: before), after. repeat split; [|done].
    constructor; [|done]. by exists s, s1.
Qed.


End Choice.

(** What [findFullSip] yields for the body of a clause: at most one
    ordering, the head followed by the literal, for a body of one
    literal; lists of one literal for a body of two literals or more. *)
Lemma findFullSip_yields_shape `{PyRuntime} head formulae :
  match formulae with
  | [r] =>
      yields (findFullSip ([head], None) (AndSeq formulae)) = []
      ∨ yields (findFullSip ([head], None) (AndSeq formulae)) = [[head; r]]
  | _ =>
      Forall (λ o : list condition, length o = 1)
        (yields (findFullSip ([head], None) (AndSeq formulae)))
  end.
Proof.
  destruct formulae as [|r0 [|r1 formulae]].
  - unfold findFullSip. rewrite findFullSip_fuel_unfold. simpl.
    destruct (GetArgs head true); by apply Forall_nil.
  - unfold findFullSip. rewrite findFullSip_fuel_unfold. simpl.
    destruct (GetArgs head true); simpl; [|by left].
    destruct (GetArgs r0 true); simpl; [|by left].
    destruct (nonempty _); simpl; [by right|by left].
  - apply findFullSip_And_yields_one_literal.
Qed.

Lemma findFullSip_tail `{PyRuntime} head formulae o :
  o ∈ yields (findFullSip ([head], None) (AndSeq formulae)) →
  tail o = match formulae with [r] => [r] | _ => [] end.
Proof.
  intros Ho. pose proof (findFullSip_yields_shape head formulae) as Hs.
  assert (length o = 1 → tail o = []) as Hone
    by (by destruct o as [|x [|y o]]).
  destruct formulae as [|r0 [|r1 formulae]].
  - rewrite Forall_forall in Hs. auto.
  - destruct Hs as [Hs|Hs]; rewrite Hs in Ho.
    + by apply elem_of_nil in Ho.
    + by apply list_elem_of_singleton in Ho as ->.
  - rewrite Forall_forall in Hs. auto.
Qed.







(** ** Occurrence identifiers *)

Lemma underscore_free_sep a b :
  underscore_free (a +:+ String "_" b) = false.
Proof.
  induction a as [|c a IH]; simpl; [done|].
  rewrite IH. apply andb_false_r.
Qed.

Lemma underscore_free_app a b :
  underscore_free (a +:+ "_" +:+ b) = false.
Proof. apply underscore_free_sep. Qed.

Lemma separator_cut s1 s2 r1 r2 :
  underscore_free s1 = true → underscore_free s2 = true →
  s1 +:+ String "_" r1 = s2 +:+ String "_" r2 → s1 = s2 ∧ r1 = r2.
Proof.
  revert s2. induction s1 as [|a s1 IH]; intros [|b s2]; simpl.
  - by intros _ _ [= ->].
  - intros _ Hb [= <- _]. done.
  - intros Ha _ [= -> _]. done.
  - intros [_ Ha]%andb_true_iff [_ Hb]%andb_true_iff [= -> Heq].
    destruct (IH s2 Ha Hb Heq) as [-> ->]. done.
Qed.

(** Two strings without underscores that are followed by an underscore
    and more text are cut at the same place. *)
Lemma separator_split s1 s2 r1 r2 :
  underscore_free s1 = true → underscore_free s2 = true →
  s1 +:+ "_" +:+ r1 = s2 +:+ "_" +:+ r2 → s1 = s2 ∧ r1 = r2.
Proof. apply separator_cut. Qed.

Lemma join_cons x y (l : list string) :
  String.concat "_" (x :: y :: l) = x +:+ "_" +:+ String.concat "_" (y :: l).
Proof. done. Qed.

(** ['_'.join] is injective on non-empty lists of strings without
    underscores. *)
Lemma join_inj (l1 l2 : list string) :
  l1 ≠ [] → l2 ≠ [] →
  Forall (λ x, underscore_free x = true) l1 →
  Forall (λ x, underscore_free x = true) l2 →
  String.concat "_" l1 = String.concat "_" l2 → l1 = l2.
Proof.
  revert l2. induction l1 as [|x l1 IH]; intros l2 Hn1 Hn2 H1 H2; [done|].
  destruct l2 as [|x' l2]; [done|].
  apply Forall_cons_1 in H1 as [Hx H1]. apply Forall_cons_1 in H2 as [Hx' H2].
  destruct l1 as [|y l1], l2 as [|y' l2]; rewrite ?join_cons.
  - simpl. by intros ->.
  - simpl String.concat at 1. intros ->.
    by rewrite underscore_free_app in Hx.
  - simpl String.concat at 2. intros <-.
    by rewrite underscore_free_app in Hx'.
  - intros Heq. apply separator_split in Heq as [-> Heq]; [|done..].
    f_equal. by apply IH.
Qed.

Lemma GetArgs_nonempty l secondOrder args :
  GetArgs l secondOrder = Ok args → args ≠ [].
Proof.
  induction l as [u a r|op a0 a1 naf|f IH|fs|fs]; simpl; try done.
  - by intros [= <-].
  - repeat case_match; by intros [= <-].
Qed.

(** C6 (as amended).  The identifier [getOccurrenceId] gives a literal
    does not depend on the lookup table it is called with, and two
    literals whose operator and argument strings have no underscore get
    the same identifier only if they have the same operator string and
    the same argument strings. *)
Theorem getOccurrenceId_stable_separating l1 l2 k1 k2 op1 args1 op2 args2 :
  GetOp l1 = Ok op1 → GetArgs l1 false = Ok args1 →
  GetOp l2 = Ok op2 → GetArgs l2 false = Ok args2 →
  Forall (λ x, underscore_free x = true) (term_str <$> op1 :: args1) →
  Forall (λ x, underscore_free x = true) (term_str <$> op2 :: args2) →
  (∀ k, occurrence_of (getOccurrenceId l1 k)
        = occurrence_of (getOccurrenceId l1 k1))
  ∧ (occurrence_of (getOccurrenceId l1 k1)
     = occurrence_of (getOccurrenceId l2 k2) →
     term_str op1 = term_str op2 ∧ term_str <$> args1 = term_str <$> args2).
Proof.
  intros Ho1 Ha1 Ho2 Ha2 H1 H2. unfold getOccurrenceId.
  rewrite Ho1, Ha1, Ho2, Ha2. simpl. split; [done|].
  intros [= Heq].
  apply Forall_cons_1 in H1 as [Hop1 H1]. apply Forall_cons_1 in H2 as [Hop2 H2].
  apply separator_split in Heq as [Hop Hargs]; [|done..].
  split; [done|]. apply join_inj; try done.
  - intros Hn. apply fmap_nil_inv in Hn. by apply GetArgs_nonempty in Ha1.
  - intros Hn. apply fmap_nil_inv in Hn. by apply GetArgs_nonempty in Ha2.
Qed.

Lemma getOccurrenceId_stable_separating_witness :
  (∀ k, occurrence_of (getOccurrenceId (atom "sg" "Z1" "Z2") k)
        = occurrence_of (getOccurrenceId (atom "sg" "Z1" "Z2") ∅))
  ∧ (occurrence_of (getOccurrenceId (atom "sg" "Z1" "Z2") ∅)
     = occurrence_of (getOccurrenceId (atom "sg" "Z3" "Z4") ∅) →
     term_str (ex "sg") = term_str (ex "sg")
     ∧ term_str <$> [Var "Z1"; Var "Z2"] = term_str <$> [Var "Z3"; Var "Z4"]).
Proof.
  apply (getOccurrenceId_stable_separating
           (atom "sg" "Z1" "Z2") (atom "sg" "Z3" "Z4") ∅ ∅
           (ex "sg") [Var "Z1"; Var "Z2"] (ex "sg") [Var "Z3"; Var "Z4"]);
    try reflexivity.
  - vm_compute. repeat constructor.
  - vm_compute. repeat constructor.
Defined.

(** C6 (counterexample).  The atoms [p(?a_b, ?c)] and [p(?a, ?b_c)] are
    different literals and get the same identifier. *)
Lemma getOccurrenceId_collision :
  p_ab_c ≠ p_a_bc
  ∧ occurrence_of (getOccurrenceId p_ab_c ∅)
    = Some (URIRef "http://example.org/p_a_b_c")
  ∧ occurrence_of (getOccurrenceId p_a_bc ∅)
    = Some (URIRef "http://example.org/p_a_b_c").
Proof. split; [done|]. by vm_compute. Qed.

(** ** Claims about [BackwardChainingStore.py] *)

Section ConjunctiveStrategy.
Context (self : store).
Context (evaluate : triple → env → bool + list env).
Context (solveGoal : triple → env → list answer).

Local Abbreviation strategy :=
  (conjunctiveSipStrategy self evaluate solveGoal).
Local Abbreviation strategy_fuel :=
  (conjunctiveSipStrategy_fuel self evaluate solveGoal).

Lemma rmap_ok {A B} (f : A → res B) (P : B → Prop) (l : list A) :
  (∀ x, x ∈ l → ∃ y, f x = Ok y ∧ P y) →
  ∃ ys, rmap f l = Ok ys ∧ Forall P ys ∧ length ys = length l.
Proof.
  induction l as [|x l IH]; intros Hf; [by exists []|].
  destruct (Hf x) as (y & Hy & HP); [by left|].
  destruct IH as (ys & Hys & HPs & Hlen).
  { intros z Hz. apply Hf. by right. }
  exists (y :: ys). simpl. rewrite Hy. simpl. rewrite Hys. simpl.
  repeat split; [by constructor|by f_equal].
Qed.

Lemma furthest_le rest its :
  Forall (λ it : list triple, length it ≤ length rest) its →
  length (foldl furthest rest its) ≤ length rest.
Proof.
  assert (∀ cur, length cur ≤ length rest →
            Forall (λ it : list triple, length it ≤ length rest) its →
            length (foldl furthest cur its) ≤ length rest) as Hgen.
  { induction its as [|it its IH]; intros cur Hcur Hall; [done|].
    apply Forall_cons_1 in Hall as [Hit Hall]. simpl. apply IH; [|done].
    unfold furthest. by case_decide. }
  by apply Hgen.
Qed.

Lemma rmap_ends {A B} (f : A → res B) (P : B → Prop) (Q : exn → Prop)
    (l : list A) :
  (∀ x, x ∈ l → match f x with Ok y => P y | Raise e => Q e end) →
  match rmap f l with Ok ys => Forall P ys | Raise e => Q e end.
Proof.
  induction l as [|x l IH]; intros Hf; [by apply Forall_nil|].
  assert (match f x with Ok y => P y | Raise e => Q e end) as Hx
    by (apply Hf; by left).
  assert (match rmap f l with Ok ys => Forall P ys | Raise e => Q e end)
    as Hl by (apply IH; intros z Hz; apply Hf; by right).
  cbn [rmap]. destruct (f x) as [y|e]; [|done]. cbn [rbind].
  destruct (rmap f l) as [ys|e]; [|done]. cbn [rbind].
  by apply Forall_cons.
Qed.

(** The strategy ends: with fuel for every remaining goal it runs to
    exhaustion, and the iterator it leaves behind is a part of the one
    it got, or it ends with the exception of a merge that failed. *)
Lemma conjunctiveSipStrategy_fuel_ok fuel goals bindings :
  length goals ≤ fuel →
  match strategy_fuel fuel goals bindings with
  | Ok (ys, it) => length it ≤ length goals
  | Raise e => e = MergeConflict
  end.
Proof.
  revert goals bindings.
  induction fuel as [|fuel IH]; intros [|tp rest] bindings Hlen;
    simpl in *; try lia; try done.
  assert (length rest ≤ fuel) as Hrest by lia.
  destruct (derivedPredicateFromTriple self tp).
  - (* a derived goal: the answers share one iterator *)
    generalize (solveGoal tp bindings). intros answers.
    assert (∀ it, length it ≤ length rest →
      match
        (fix answers (l : list answer) (it : list triple)
           : res (list env * list triple) :=
           match l with
           | [] => Ok ([], it)
           | nextAnswer :: l' =>
               r1 ← match nextAnswer with
                    | AnsDict d =>
                        match mergeMappings1To2 bindings d with
                        | Some m => strategy_fuel fuel it m
                        | None => Raise MergeConflict
                        end
                    | AnsBool true => strategy_fuel fuel it bindings
                    | AnsBool false => Ok ([], it)
                    end;
               r2 ← answers l' r1.2;
               Ok (r1.1 ++ r2.1, r2.2)
           end) answers it
      with
      | Ok (ys, it') => length it' ≤ length rest
      | Raise e => e = MergeConflict
      end) as Hloop.
    { induction answers as [|a answers IHa]; intros it Hit; [done|].
      assert (match
        match a with
        | AnsDict d =>
            match mergeMappings1To2 bindings d with
            | Some m => strategy_fuel fuel it m
            | None => Raise MergeConflict
            end
        | AnsBool true => strategy_fuel fuel it bindings
        | AnsBool false => Ok ([], it)
        end with
        | Ok (ys1, it1) => length it1 ≤ length rest
        | Raise e => e = MergeConflict
        end) as H1.
      { destruct a as [d|[]]; [| |done].
        - destruct (mergeMappings1To2 bindings d) as [m|]; [|done].
          specialize (IH it m ltac:(lia)).
          destruct (strategy_fuel fuel it m) as [[ys it']|e]; [lia|done].
        - specialize (IH it bindings ltac:(lia)).
          destruct (strategy_fuel fuel it bindings) as [[ys it']|e];
            [lia|done]. }
      destruct (match a with
                | AnsDict d =>
                    match mergeMappings1To2 bindings d with
                    | Some m => strategy_fuel fuel it m
                    | None => Raise MergeConflict
                    end
                | AnsBool true => strategy_fuel fuel it bindings
                | AnsBool false => Ok ([], it)
                end) as [[ys1 it1]|e]; [|done].
      cbn [mbind res_bind rbind fst snd].
      specialize (IHa it1 H1).
      match type of IHa with
      | match ?r with _ => _ end => destruct r as [[ys2 it2]|e2]; [|done]
      end.
      cbn [rbind snd]. done. }
    specialize (Hloop rest ltac:(done)).
    match type of Hloop with
    | match ?r with _ => _ end => destruct r as [[ys it']|e2]; [lia|done]
    end.
  - destruct (evaluate tp bindings) as [[]|rt]; try (simpl; lia).
    pose proof (rmap_ends
      (λ row, strategy_fuel fuel rest (bindings ∪ row))
      (λ run, length run.2 ≤ length rest) (λ e, e = MergeConflict) rt)
      as Hruns.
    cbv beta in Hruns.
    match type of Hruns with
    | _ → match ?r with _ => _ end =>
        destruct r as [runs|e]; cbn [mbind res_bind rbind]
    end.
    + etrans; [apply furthest_le|lia]. apply Forall_fmap, Hruns.
      intros row _. specialize (IH rest (bindings ∪ row) Hrest).
      by destruct (strategy_fuel fuel rest (bindings ∪ row)) as [[ys it]|e].
    + apply Hruns. intros row _.
      specialize (IH rest (bindings ∪ row) Hrest).
      by destruct (strategy_fuel fuel rest (bindings ∪ row)) as [[ys it]|e'].
Qed.




End ConjunctiveStrategy.


(** *** Hybrid-predicate preparation *)

Lemma deepcopy_frame rule h rule' h' :
  deepcopy rule h = Some (rule', h') →
  h !! rule' = None ∧ h ⊆ h' ∧ is_Some (h' !! rule').
Proof.
  unfold deepcopy. destruct (h !! rule) as [c|]; simpl; [|done].
  intros [= <- <-].
  assert (h !! fresh (dom h : gset nat) = None) as Hfresh.
  { apply not_elem_of_dom, is_fresh. }
  repeat split; [done|by apply insert_subseteq|].
  rewrite lookup_insert_eq. by eexists.
Qed.

Lemma deepcopy_all_frame rules h new_rules h' :
  deepcopy_all rules h = Some (new_rules, h') →
  h ⊆ h' ∧ Forall (λ r, h !! r = None ∧ is_Some (h' !! r)) new_rules.
Proof.
  revert h new_rules h'.
  induction rules as [|r rules IH]; intros h new_rules h'; simpl.
  - by intros [= <- <-].
  - destruct (deepcopy r h) as [[r' h1]|] eqn:Hr; simpl; [|done].
    destruct (deepcopy_all rules h1) as [[rs' h2]|] eqn:Hrs; simpl; [|done].
    intros [= <- <-].
    apply deepcopy_frame in Hr as (Hnew & Hsub1 & Hin1).
    apply IH in Hrs as (Hsub2 & Hall).
    split; [by etrans|]. constructor.
    + split; [done|]. destruct Hin1 as [c Hc].
      exists c. by eapply lookup_weaken.
    + eapply Forall_impl; [exact Hall|]. intros x [Hx1 Hx2]. split; [|done].
      destruct (h !! x) as [c|] eqn:Hc; [|done].
      by rewrite (lookup_weaken _ _ _ _ Hc Hsub1) in Hx1.
Qed.

Lemma ReplaceHybridPredcates_frame rules hybrid h l :
  l ∉ rules → ReplaceHybridPredcates rules hybrid h !! l = h !! l.
Proof.
  unfold ReplaceHybridPredcates. revert h.
  induction rules as [|r rules IH]; intros h Hl; [done|].
  apply not_elem_of_cons in Hl as [Hne Hl]. simpl.
  rewrite IH by done. by apply lookup_alter_ne.
Qed.

Lemma appendBridges_frame hybrid program new_rules h rules' h' :
  appendBridges hybrid program new_rules h = (rules', h') → h ⊆ h'.
Proof.
  revert new_rules h. induction hybrid as [|p hybrid IH];
    intros new_rules h; simpl.
  - by intros [= _ <-].
  - intros Hrec. apply IH in Hrec. etrans; [|exact Hrec].
    apply insert_subseteq, not_elem_of_dom, is_fresh.
Qed.

(** C9.  [hybridPredicatePreparation] changes no rule object that
    existed before the call: every rule of [self.idb] holds the same
    clause afterwards (the rewriting is applied to copies). *)
Theorem hybridPredicatePreparation_frame `{TermSetOrder} self h
    new_derived_predicates new_rules h' :
  hybridPredicatePreparation self h
  = Some (new_derived_predicates, new_rules, h') →
  ∀ rule c, rule ∈ idb self → h !! rule = Some c → h' !! rule = Some c.
Proof.
  unfold hybridPredicatePreparation.
  destruct (deepcopy_all (idb self) h) as [[copies h1]|] eqn:Hcopy;
    simpl; [|done].
  destruct (appendBridges _ _ _ _) as [rules' h2] eqn:Hbridge.
  intros [= _ _ <-] rule c _ Hrule.
  apply deepcopy_all_frame in Hcopy as [Hsub Hfresh].
  apply appendBridges_frame in Hbridge.
  eapply lookup_weaken; [|exact Hbridge].
  rewrite ReplaceHybridPredcates_frame; [by eapply lookup_weaken|].
  intros Hin. rewrite Forall_forall in Hfresh.
  destruct (Hfresh rule Hin) as [Hnone _]. congruence.
Qed.

Lemma hybridPredicatePreparation_frame_witness :
  ∃ r, hybridPredicatePreparation (H:=insertionOrder) hybrid_store hybrid_heap
       = Some r
     ∧ r.1.2 = [1; 2]
     ∧ r.2 !! 0 = Some p_rule.
Proof.
  eexists. split; [vm_compute; reflexivity|]. split; [reflexivity|].
  eapply (@hybridPredicatePreparation_frame insertionOrder
            hybrid_store hybrid_heap).
  - vm_compute. reflexivity.
  - by left.
  - reflexivity.
Defined.

(** The rules of the new rule set are new objects. *)
Lemma hybridPredicatePreparation_new_rules `{TermSetOrder} self h
    new_derived_predicates new_rules h' :
  hybridPredicatePreparation self h
  = Some (new_derived_predicates, new_rules, h') →
  Forall (λ r, h !! r = None) new_rules.
Proof.
  unfold hybridPredicatePreparation.
  destruct (deepcopy_all (idb self) h) as [[copies h1]|] eqn:Hcopy;
    simpl; [|done].
  apply deepcopy_all_frame in Hcopy as [Hsub Hfresh].
  assert (∀ hybrid program rules h2 rules' h3,
            appendBridges hybrid program rules h2 = (rules', h3) →
            h ⊆ h2 → Forall (λ r, h !! r = None) rules →
            Forall (λ r, h !! r = None) rules') as Hbridges.
  { clear. induction hybrid as [|p hybrid IH];
      intros program rules h2 rules' h3; simpl.
    - by intros [= <- _].
    - intros Hrec Hsub Hall. eapply IH; [exact Hrec| |].
      + etrans; [exact Hsub|].
        apply insert_subseteq, not_elem_of_dom, is_fresh.
      + apply Forall_app. split; [done|]. constructor; [|done].
        destruct (h !! fresh (dom h2 : gset nat)) as [c|] eqn:Hc; [|done].
        apply (lookup_weaken _ _ _ _ Hc) in Hsub.
        apply elem_of_dom_2 in Hsub. by apply is_fresh in Hsub. }
  destruct (appendBridges _ _ _ _) as [rules' h2] eqn:Hbridge.
  intros [= _ <- _]. eapply Hbridges; [exact Hbridge| |].
  - apply map_subseteq_spec. intros l c Hl.
    rewrite ReplaceHybridPredcates_frame; [by eapply lookup_weaken|].
    intros Hin. rewrite Forall_forall in Hfresh.
    destruct (Hfresh l Hin) as [Hnone _]. congruence.
  - eapply Forall_impl; [exact Hfresh|]. by intros x [? _].
Qed.

(** The preparation returns whenever the rules of [self.idb] are
    allocated. *)
Lemma hybridPredicatePreparation_total `{TermSetOrder} self h :
  Forall (λ r, is_Some (h !! r)) (idb self) →
  is_Some (hybridPredicatePreparation self h).
Proof.
  intros Hall. unfold hybridPredicatePreparation.
  assert (∀ rules h, Forall (λ r, is_Some (h !! r)) rules →
            is_Some (deepcopy_all rules h)) as Hcopy.
  { clear. induction rules as [|r rules IH]; intros h Hall; [by eexists|].
    apply Forall_cons_1 in Hall as [[c Hc] Hall]. simpl.
    unfold deepcopy at 1. rewrite Hc. simpl.
    destruct (IH (<[fresh (dom h : gset nat) := c]> h)) as [[rs h2] Hrs].
    { eapply Forall_impl; [exact Hall|]. intros x [cx Hx].
      exists cx. eapply lookup_weaken; [exact Hx|].
      apply insert_subseteq, not_elem_of_dom, is_fresh. }
    rewrite Hrs. by eexists. }
  destruct (Hcopy _ _ Hall) as [[copies h1] ->]. simpl.
  destruct (appendBridges _ _ _ _). by eexists.
Qed.

(** *** [batch_unify] *)

(** C10.  When the patterns involve base predicates only and none of
    their positions is a variable, and the store returns at least one
    result, [batch_unify] yields nothing and ends with an [IndexError]. *)
Theorem batch_unify_ground_raises_IndexError `{TermSetOrder} self evaluate
    solveGoal select_rows select_values patterns :
  involvesDerived self patterns = false →
  pattern_vars patterns = [] →
  select_values
    (BuildUnitermFromTuple <$> ((λ '(s, p, o, g), (s, p, o)) <$> patterns)) []
  ≠ [] →
  batch_unify self evaluate solveGoal select_rows select_values patterns
  = gen_raise IndexError.
Proof.
  intros Hbase Hvars Hres. unfold batch_unify. rewrite Hbase, Hvars.
  assert (term_order [] = []) as ->.
  { apply Permutation_nil_r. by rewrite term_order_perm. }
  simpl. destruct (select_values _ _) as [|v vs]; done.
Qed.

Lemma batch_unify_ground_raises_IndexError_witness :
  @batch_unify base_store (λ _ _, inl true) (λ _ _, []) insertionOrder
    (λ _ _, []) (λ _ _, [ex "x"]) [ground_pattern]
  = gen_raise IndexError.
Proof.
  apply (@batch_unify_ground_raises_IndexError insertionOrder base_store
           (λ _ _, inl true) (λ _ _, []) (λ _ _, []) (λ _ _, [ex "x"])
           [ground_pattern]).
  - reflexivity.
  - reflexivity.
  - discriminate.
Defined.

(** * Further properties of the code *)

(** ** Term introspection *)

(** X1.  Setting the predicate symbol of a builtin or a uniterm and
    reading it back gives the value set, when the value is a non-empty
    term other than [rdf:type].  (Setting [rdf:type] as the operator of
    [p(a, b)] makes [GetOp] answer [b], and an empty class name makes it
    answer [rdf:type].) *)
Theorem SetOp_then_GetOp t value t' :
  truthy value = true → value ≠ RDF_type →
  SetOp t value = Ok t' → GetOp t' = Ok value.
Proof.
  intros Hv Hne. destruct t as [u a r|op a0 a1 naf|f|fs|fs]; simpl; try done.
  - by intros [= <-].
  - case_bool_decide as Hop; intros [= <-]; simpl.
    + by rewrite bool_decide_eq_true_2, Hv.
    + by rewrite bool_decide_eq_false_2.
Qed.

Lemma SetOp_then_GetOp_witness :
  GetOp (Uniterm (ex "q") (Var "X") (Var "Y") false) = Ok (ex "q").
Proof.
  apply (SetOp_then_GetOp (atom "p" "X" "Y") (ex "q"));
    [reflexivity|discriminate|reflexivity].
Defined.

(** X2.  [GetOp], [GetArgs] and [GetVariables] are defined on the same
    terms, the builtins and uniterms under any number of [Exists]: one
    of them raises exactly when the others do, and what [GetArgs]
    raises is a [TypeError]. *)
Theorem GetOp_GetArgs_same_domain t secondOrder :
  is_ok (GetOp t) = is_ok (GetArgs t secondOrder)
  ∧ (stop (GetVariables t secondOrder) = None ↔ is_ok (GetOp t) = true)
  ∧ (is_ok (GetOp t) = false → GetArgs t secondOrder = Raise TypeError).
Proof.
  unfold GetVariables.
  induction t as [u a r|op a0 a1 naf|f IH|fs|fs]; simpl; try done.
  repeat case_match; done.
Qed.

(** ** The variables passed along an arc *)

Lemma rmap_Forall2 {A B} (f : A → res B) (l : list A) ys :
  rmap f l = Ok ys → Forall2 (λ x y, f x = Ok y) l ys.
Proof.
  revert ys. induction l as [|x l IH]; intros ys; simpl.
  - intros [= <-]. constructor.
  - destruct (f x) as [y|e] eqn:Hx; simpl; [|done].
    destruct (rmap f l) as [ys'|e]; simpl; [|done].
    intros [= <-]. constructor; [done|]. by apply IH.
Qed.

(** X3.  Every term [CollectSIPArcVars] puts on an arc is an argument
    of the literal the arc enters, and is a bound variable of the head
    or an argument of a literal on the left of the arc. *)
Theorem CollectSIPArcVars_sound left right phBoundVars vars v :
  CollectSIPArcVars left right phBoundVars = Ok vars → v ∈ vars →
  (∃ rargs, GetArgs (cond right) true = Ok rargs ∧ v ∈ rargs)
  ∧ (v ∈ phBoundVars
     ∨ ∃ t args, t ∈ acc_members left
                 ∧ GetArgs (cond t) true = Ok args ∧ v ∈ args).
Proof.
  unfold CollectSIPArcVars. destruct left as [o|l]; simpl.
  - destruct (nonnil phBoundVars) eqn:Hph; simpl.
    + destruct (GetArgs (cond right) true) as [rargs|e]; simpl; [|done].
      intros [= <-] Hv. apply elem_of_intersection in Hv as [Hl Hr].
      apply elem_of_list_to_set in Hl, Hr. split; [by exists rargs|by left].
    + destruct (GetArgs (cond o) true) as [largs|e] eqn:Hl; simpl; [|done].
      destruct (GetArgs (cond right) true) as [rargs|e]; simpl; [|done].
      intros [= <-] Hv. apply elem_of_intersection in Hv as [Hvl Hvr].
      apply elem_of_list_to_set in Hvl, Hvr. split; [by exists rargs|].
      right. exists o, largs. split; [by left|done].
  - destruct (rmap _ l) as [parts|e] eqn:Hparts; simpl; [|done].
    destruct parts as [|part parts]; [done|].
    destruct (GetArgs (cond right) true) as [rargs|e]; simpl; [|done].
    intros [= <-] Hv. apply elem_of_intersection in Hv as [Hvl Hvr].
    apply elem_of_list_to_set in Hvl, Hvr. split; [by exists rargs|].
    apply rmap_Forall2 in Hparts.
    change (v ∈ concat (part :: parts)) in Hvl.
    apply list_elem_of_In, in_concat in Hvl as (p & Hp & Hvp).
    apply list_elem_of_In in Hp, Hvp.
    apply list_elem_of_lookup in Hp as [i Hi].
    destruct (Forall2_lookup_r _ _ _ _ _ Hparts Hi) as (t & Ht & Hf).
    destruct (isHead t && nonnil phBoundVars).
    + left. by injection Hf as ->.
    + right. exists t, p. split; [by eapply list_elem_of_lookup_2|done].
Qed.

Lemma CollectSIPArcVars_sound_witness :
  (∃ rargs, GetArgs (atom "up" "X" "Z1") true = Ok rargs ∧ Var "X" ∈ rargs)
  ∧ (Var "X" ∈ [Var "X"]
     ∨ ∃ t args, t ∈ [PyObj sg_head true]
                 ∧ GetArgs (cond t) true = Ok args ∧ Var "X" ∈ args).
Proof.
  apply (CollectSIPArcVars_sound (Single (PyObj sg_head true))
           (obj (atom "up" "X" "Z1")) [Var "X"]
           (list_to_set [Var "X"] ∩ list_to_set [Var "X"; Var "Z1"])
           (Var "X")).
  - reflexivity.
  - apply elem_of_intersection. split; apply elem_of_list_to_set; by left.
Defined.

(** ** The orderings [findFullSip] yields, in general *)

Lemma gen_for_nil {A B} (l : list A) (body : A → gen B) :
  (∀ x, x ∈ l → body x = gen_nil) → gen_for l body = gen_nil.
Proof.
  induction l as [|x l IH]; intros Hb; [done|].
  simpl. rewrite (Hb x) by left. rewrite IH; [done|].
  intros y Hy. apply Hb. by right.
Qed.

(** On a plain list every ordering yielded is made of items of the
    list. *)
Lemma findFullSip_list_yields_items `{PyRuntime} fuel rt vars items :
  Forall (λ o : list condition, ∀ x, x ∈ o → x ∈ items)
    (yields (findFullSip_fuel fuel rt vars (ListSeq items))).
Proof.
  revert rt vars items. induction fuel as [|fuel IH]; intros rt vars items;
    rewrite findFullSip_fuel_unfold;
    (destruct (match vars with Some _ => _ | None => _ end);
       [|by apply Forall_nil]);
    cbn [seq_items isAnd];
    (destruct items as [|r0 [|r1 items]];
       [by apply Forall_nil
       |destruct (GetArgs r0 true); [|by apply Forall_nil];
        destruct (nonempty _); [|by apply Forall_nil];
        by apply Forall_singleton
       |]);
    apply gen_for_yields; intros item _;
    (destruct (GetArgs item true); [|by apply Forall_nil]);
    cbv zeta; (destruct (nonempty _); [|by apply Forall_nil]).
  - by apply Forall_nil.
  - eapply Forall_impl; [apply IH|]. intros o Ho x Hx.
    specialize (Ho x Hx). apply elem_of_filter_bool in Ho as [_ Ho]. done.
Qed.

(** X4.  What [findFullSip] yields for a clause, in general: for a body
    of one literal [r] every ordering is the head followed by [r]; for
    a body of two literals or more every ordering is a list of one
    literal of the body, without the head and without the literals
    chosen before it. *)
Theorem findFullSip_orderings `{PyRuntime} head formulae o :
  o ∈ yields (findFullSip ([head], None) (AndSeq formulae)) →
  match formulae with
  | [r] => o = [head; r]
  | _ => ∃ x, o = [x] ∧ x ∈ formulae
  end.
Proof.
  destruct formulae as [|r0 [|r1 formulae]].
  - unfold findFullSip. rewrite findFullSip_fuel_unfold. simpl.
    destruct (GetArgs head true); simpl; intros Ho; by apply elem_of_nil in Ho.
  - unfold findFullSip. rewrite findFullSip_fuel_unfold. simpl.
    destruct (GetArgs head true); simpl;
      [|intros Ho; by apply elem_of_nil in Ho].
    destruct (GetArgs r0 true); simpl;
      [|intros Ho; by apply elem_of_nil in Ho].
    destruct (nonempty _); simpl; intros Ho.
    + by apply list_elem_of_singleton in Ho.
    + by apply elem_of_nil in Ho.
  - intros Ho.
    pose proof (findFullSip_And_yields_one_literal [head] None r0 r1 formulae)
      as Hlen.
    rewrite Forall_forall in Hlen. specialize (Hlen o Ho).
    destruct o as [|x [|y o]]; try done. exists x. split; [done|].
    revert Ho. unfold findFullSip. rewrite findFullSip_fuel_unfold.
    destruct (match _ with Some _ => _ | None => _ end);
      [|intros Ho; by apply elem_of_nil in Ho].
    cbn [seq_items length]. intros Ho.
    assert (Forall (λ o : list condition, ∀ x, x ∈ o → x ∈ r0 :: r1 :: formulae)
              (yields (gen_for (r0 :: r1 :: formulae) (λ item,
                 match GetArgs item true with
                 | Raise e => gen_raise e
                 | Ok args =>
                     let _vars : gset term :=
                       list_to_set (List.filter isVariableOrBNode args) in
                     if nonempty (_vars ∩ a) then
                       findFullSip_fuel (S (length formulae)) ([head] ++ [item])
                         (Some (a ∪ (_vars ∖ a)))
                         (ListSeq (List.filter (λ i, cond_neq i item)
                                     (r0 :: r1 :: formulae)))
                     else gen_nil
                 end)))) as Hall.
    { apply gen_for_yields. intros item _.
      destruct (GetArgs item true); [|by apply Forall_nil].
      cbv zeta. destruct (nonempty _); [|by apply Forall_nil].
      eapply Forall_impl; [apply findFullSip_list_yields_items|].
      intros o' Ho' z Hz. specialize (Ho' z Hz).
      by apply elem_of_filter_bool in Ho' as [_ Ho']. }
    rewrite Forall_forall in Hall. apply (Hall [x] Ho). by left.
Qed.

Lemma findFullSip_orderings_witness :
  ∃ x, [atom "down" "Z1" "Y"] = [x]
       ∧ x ∈ [atom "up" "X" "Z1"; atom "down" "Z1" "Y"].
Proof.
  apply (@findFullSip_orderings structuralRuntime sg_head
           [atom "up" "X" "Z1"; atom "down" "Z1" "Y"]).
  vm_compute. by left.
Defined.

(** ** What [BuildNaturalSIP] returns, in general *)

Lemma chooseBodyOrder_elem `{PyRuntime} phBoundVars ignoreUnboundDPreds
    boundHead head formulae s order s' :
  chooseBodyOrder phBoundVars ignoreUnboundDPreds boundHead head formulae s
  = (Ok order, s') →
  order ∈ yields (findFullSip ([head], None) (AndSeq formulae)).
Proof.
  unfold chooseBodyOrder. set (sips := findFullSip _ _).
  destruct ignoreUnboundDPreds eqn:Hi.
  - intros Hsel. rewrite <- Hi in Hsel.
    apply firstFoldingSip_split in Hsel as (before & after & -> & _).
    apply elem_of_app. right. by left.
  - unfold first, gen_filter. simpl.
    destruct (existsb isNafUniterm formulae).
    + destruct (List.filter _ (yields sips)) as [|o r] eqn:Hf.
      * by destruct (stop sips).
      * destruct o as [|l o]; [done|].
        destruct (foldOrder _ _ _ _ _) as [[a|e] s1]; [|done].
        intros [= <- <-].
        assert (l :: o ∈ List.filter ProperSipOrderWithNegation (yields sips))
          as Hin by (rewrite Hf; by left).
        by apply elem_of_filter_bool in Hin as [_ Hin].
    + destruct (yields sips) as [|o r] eqn:Hf.
      * by destruct (stop sips).
      * destruct o as [|l o]; [done|].
        destruct (foldOrder _ _ _ _ _) as [[a|e] s1]; [|done].
        intros [= <- <-]. by left.
Qed.

(** X5.  The [sipOrder] of the graph [BuildNaturalSIP] returns for a
    clause with a conjunctive body: the body itself when it has one
    literal, and the empty conjunction when it has two literals or
    more, whatever the adornment and the options. *)
Theorem BuildNaturalSIP_sipOrder `{PyRuntime} head formulae derivedPreds
    adornedHead hybridPreds2Replace ignoreUnboundDPreds g :
  BuildNaturalSIP (Clause head (And formulae)) derivedPreds adornedHead
    hybridPreds2Replace ignoreUnboundDPreds = Ok g →
  sipOrder g = And (match formulae with [r] => [r] | _ => [] end).
Proof.
  unfold BuildNaturalSIP. cbn [body Condition.head].
  destruct (chooseBodyOrder _ _ _ _ _ _) as [[order|e] s] eqn:Hsel; [|done].
  apply chooseBodyOrder_elem, findFullSip_tail in Hsel as ->. destruct (nonnil derivedPreds); [|by intros [= <-]].
  destruct (generalizeSip _ _ _ _) as [[[]|e] s1]; [|done].
  by intros [= <-].
Qed.

Lemma BuildNaturalSIP_sipOrder_witness :
  ∃ g, @BuildNaturalSIP structuralRuntime sg_rule [ex "sg"] sg_bf None true
       = Ok g
     ∧ sipOrder g = And [].
Proof.
  eexists. split; [vm_compute; reflexivity|].
  apply (@BuildNaturalSIP_sipOrder structuralRuntime sg_head sg_body
           [ex "sg"] sg_bf None true).
  vm_compute. reflexivity.
Defined.

(** X6.  A clause whose conjunctive body has no literal with an
    argument in common with the head has no SIP: [BuildNaturalSIP]
    raises [InvalidSIPException] with [ignoreUnboundDPreds], and fails
    its assertion without.  The empty conjunction is such a body. *)
Theorem BuildNaturalSIP_without_shared_argument `{PyRuntime} head formulae
    hargs derivedPreds adornedHead hybridPreds2Replace ignoreUnboundDPreds :
  GetArgs head true = Ok hargs →
  (∀ r, r ∈ formulae →
     ∃ args, GetArgs r true = Ok args ∧ ∀ v, v ∈ args → v ∉ hargs) →
  BuildNaturalSIP (Clause head (And formulae)) derivedPreds adornedHead
    hybridPreds2Replace ignoreUnboundDPreds
  = Raise (if ignoreUnboundDPreds then InvalidSIPException
           else AssertionError).
Proof.
  intros Hh Hdis.
  assert (∀ args : list term, (∀ v, v ∈ args → v ∉ hargs) →
            nonempty (list_to_set args ∩ list_to_set hargs) = false) as Hno.
  { intros args Ha. apply bool_decide_eq_false. intros Hne. apply Hne.
    apply set_eq. intros v. rewrite elem_of_intersection, !elem_of_list_to_set.
    split; [|by intros ?%elem_of_empty]. intros [Hv1 Hv2]. by destruct (Ha v). }
  assert (findFullSip ([head], None) (AndSeq formulae) = gen_nil) as Hnil.
  { assert (initial_vars [head] = Ok (list_to_set hargs)) as Hinit.
    { simpl. by rewrite Hh. }
    unfold findFullSip. rewrite findFullSip_fuel_unfold.
    cbn [fst snd seq_items]. rewrite Hinit.
    destruct formulae as [|r0 [|r1 formulae]]; [done|..].
    - destruct (Hdis r0) as (args & -> & Ha); [by left|].
      by rewrite (Hno args Ha).
    - apply gen_for_nil. intros item Hitem.
      destruct (Hdis item Hitem) as (args & -> & Ha). cbv zeta.
      rewrite (Hno (List.filter isVariableOrBNode args)); [done|].
      intros v Hv. apply Ha. by apply elem_of_filter_bool in Hv as [_ Hv]. }
  unfold BuildNaturalSIP. cbn [body Condition.head].
  unfold chooseBodyOrder. rewrite Hnil.
  destruct ignoreUnboundDPreds; [done|].
  by destruct (existsb isNafUniterm formulae).
Qed.

Lemma BuildNaturalSIP_without_shared_argument_witness :
  @BuildNaturalSIP structuralRuntime
    (Clause (atom "h" "X" "W") (And [atom "a" "Y" "Z"; atom "b" "Y" "Z"]))
    [] (Adorned true ["b"; "f"] [Var "X"]) None true
  = Raise InvalidSIPException.
Proof.
  apply (@BuildNaturalSIP_without_shared_argument structuralRuntime
           (atom "h" "X" "W") [atom "a" "Y" "Z"; atom "b" "Y" "Z"]
           [Var "X"; Var "W"] [] (Adorned true ["b"; "f"] [Var "X"]) None
           true).
  - reflexivity.
  - intros r Hr. exists [Var "Y"; Var "Z"].
    apply elem_of_cons in Hr as [->|Hr];
      [|apply elem_of_cons in Hr as [->|Hr]; [|by apply elem_of_nil in Hr]].
    + split; [reflexivity|]. apply Forall_forall.
      apply (bool_decide_unpack _). vm_compute. exact I.
    + split; [reflexivity|]. apply Forall_forall.
      apply (bool_decide_unpack _). vm_compute. exact I.
Defined.

(** X7.  A clause whose head and body are single literals (the body is
    not a conjunction).  Without a bound head argument the graph is
    empty; with one, the graph holds the type of the bound head
    predicate and nothing else, unless [ignoreUnboundDPreds] is set and
    the body has no argument among the terms passed by the head, which
    raises [InvalidSIPException].  In each case [sipOrder] is the body
    as it is. *)
Theorem BuildNaturalSIP_single_literal `{PyRuntime} hd lit derivedPreds
    adornedHead hybridPreds2Replace ignoreUnboundDPreds ph hargs largs :
  isLiteral hd = true → isLiteral lit = true →
  GetOp hd = Ok ph → GetArgs hd true = Ok hargs →
  GetArgs lit true = Ok largs →
  BuildNaturalSIP (Clause hd lit) derivedPreds adornedHead
    hybridPreds2Replace ignoreUnboundDPreds
  = if isBoundHead adornedHead then
      if negb (nonempty
                 (list_to_set (if nonnil (distinguished adornedHead)
                               then distinguished adornedHead else hargs)
                  ∩ list_to_set largs))
         && ignoreUnboundDPreds
      then Raise InvalidSIPException
      else Ok (SIPGraph {[ (ph, RDF_type, MAGIC_BoundHeadPredicate) ]} lit)
    else Ok (SIPGraph ∅ lit).
Proof.
  intros Hhd Hlit Hop Hha Hla. unfold BuildNaturalSIP.
  cbn [body Condition.head].
  assert (iterCondition hd = [hd]) as Hih by (by destruct hd).
  assert (iterCondition lit = [lit]) as Hil by (by destruct lit).
  assert (∀ (X : list condition → res condition * st) (Y : res condition * st),
            match lit with And formulae => X formulae | _ => Y end = Y)
    as Hbody by (by destruct lit).
  rewrite Hbody, Hih, Hil. clear Hbody.
  destruct (isBoundHead adornedHead).
  - cbn [fmap list_fmap app reduce reduce_from collectSip cond obj].
    unfold CollectSIPArcVars, obj. cbn [cond]. rewrite Hla.
    assert ((if nonnil (distinguished adornedHead)
             then Ok (distinguished adornedHead)
             else GetArgs hd true)
            = Ok (if nonnil (distinguished adornedHead)
                  then distinguished adornedHead else hargs)) as ->.
    { rewrite Hha. by destruct (nonnil _). }
    cbn [mbind res_bind rbind].
    destruct (negb _ && ignoreUnboundDPreds); [done|].
    rewrite Hop. cbn [graph next_bnode].
    assert (graph_add (ph, RDF_type, MAGIC_BoundHeadPredicate) ∅
            = {[ (ph, RDF_type, MAGIC_BoundHeadPredicate) ]}) as Hg.
    { unfold graph_add. apply (right_id_L ∅ (∪)). }
    rewrite Hg. destruct (nonnil derivedPreds); [|done].
    rewrite generalizeSip_arcless; [done|].
    intros x. cbn [graph]. rewrite elem_of_singleton. by intros [= _ ?].
  - destruct (nonnil derivedPreds); [|done].
    by rewrite generalizeSip_arcless by apply arcless_empty.
Qed.

Lemma BuildNaturalSIP_single_literal_witness :
  @BuildNaturalSIP structuralRuntime
    (Clause sg_head (atom "flat" "X" "Y")) [] sg_ff None false
  = Ok (SIPGraph ∅ (atom "flat" "X" "Y")).
Proof.
  apply (@BuildNaturalSIP_single_literal structuralRuntime sg_head
           (atom "flat" "X" "Y") [] sg_ff None false (ex "sg")
           [Var "X"; Var "Y"] [Var "X"; Var "Y"]); reflexivity.
Defined.

(** ** The generalization block of [BuildNaturalSIP] *)

Lemma pair_from_fst {A B} (x : A * B) (a : A) : x.1 = a → x = (a, x.2).
Proof. intros <-. by destruct x. Qed.

Lemma Collection_uri_graph uri s : graph (Collection_uri uri s).2 = graph s.
Proof. destruct uri as [u|]; simpl; [|done]. by destruct (truthy u). Qed.

Lemma arcsToDrop_graph occurLookup derivedPreds hybrid arcs s :
  graph (arcsToDrop occurLookup derivedPreds hybrid arcs s).2 = graph s.
Proof.
  revert s. induction arcs as [|[[N prop] q] arcs IH]; intros s; [done|].
  cbn [arcsToDrop]. destruct (occurLookup !! q) as [op|]; [|done].
  destruct (dropsArc derivedPreds hybrid op); [|apply IH].
  pose proof (Collection_uri_graph (Some N) s) as H1.
  destruct (Collection_uri (Some N) s) as [colN s1]. simpl in H1.
  pose proof (Collection_uri_graph (graph_value prop MAGIC_bindings (graph s1))
                s1) as H2.
  destruct (Collection_uri (graph_value _ _ _) s1) as [colB s2]. simpl in H2.
  pose proof (IH s2) as H3.
  destruct (arcsToDrop _ _ _ arcs s2) as [[[rm cl]|e] s3]; simpl in *;
    congruence.
Qed.

Lemma arcsToDrop_KeyError occurLookup derivedPreds hybrid arcs s N prop q :
  (N, prop, q) ∈ arcs → occurLookup !! q = None →
  (arcsToDrop occurLookup derivedPreds hybrid arcs s).1 = Raise KeyError.
Proof.
  intros Hin Hq. revert s.
  induction arcs as [|[[N' prop'] q'] arcs IH]; intros s;
    [by apply elem_of_nil in Hin|].
  cbn [arcsToDrop]. destruct (occurLookup !! q') as [op|] eqn:Hq'; [|done].
  apply elem_of_cons in Hin as [[= -> -> ->]|Hin]; [congruence|].
  destruct (dropsArc derivedPreds hybrid op); [|by apply IH].
  destruct (Collection_uri (Some N') s) as [colN s1].
  destruct (Collection_uri (graph_value _ _ _) s1) as [colB s2].
  specialize (IH Hin s2).
  destruct (arcsToDrop _ _ _ arcs s2) as [[[rm cl]|e] s3]; simpl in *;
    congruence.
Qed.

(** X8.  The generalization looks every arc's destination up in
    [occurLookup] before it removes anything: when the destination of
    some arc is missing from the table, the block raises [KeyError] and
    the graph is as it was. *)
Theorem generalizeSip_missing_occurrence occurLookup derivedPreds hybrid s
    N prop q :
  (N, prop, q) ∈ sip_arcs (graph s) → occurLookup !! q = None →
  (generalizeSip occurLookup derivedPreds hybrid s).1 = Raise KeyError
  ∧ graph (generalizeSip occurLookup derivedPreds hybrid s).2 = graph s.
Proof.
  intros Hin Hq. unfold generalizeSip.
  pose proof (arcsToDrop_KeyError occurLookup derivedPreds hybrid _ s
                N prop q Hin Hq) as Hk.
  pose proof (arcsToDrop_graph occurLookup derivedPreds hybrid
                (sip_arcs (graph s)) s) as Hg.
  destruct (arcsToDrop _ _ _ _ s) as [[[rm cl]|e] s1]; simpl in *; [done|].
  by injection Hk as ->.
Qed.

Lemma generalizeSip_missing_occurrence_witness :
  (generalizeSip ∅ [ex "sg"] None (oneArcState [Var "Z1"])).1 = Raise KeyError
  ∧ graph (generalizeSip ∅ [ex "sg"] None (oneArcState [Var "Z1"])).2
    = graph (oneArcState [Var "Z1"]).
Proof.
  apply (generalizeSip_missing_occurrence ∅ [ex "sg"] None
           (oneArcState [Var "Z1"]) (ex "up") arc0 (ex "sg_Z1_Z2")).
  - apply (bool_decide_unpack _). vm_compute. exact I.
  - reflexivity.
Defined.

Lemma graph_remove_subseteq pat g : graph_remove pat g ⊆ g.
Proof.
  unfold graph_remove. intros t Ht. by apply elem_of_filter in Ht as [_ ?].
Qed.

Lemma Collection_clear_subseteq fuel container g g' :
  Collection_clear fuel container g = Ok g' → g' ⊆ g.
Proof.
  revert container g.
  induction fuel as [|fuel IH]; intros container g; simpl;
    (destruct (truthy container); [|by intros [= <-]]);
    (destruct (graph_value container RDF_rest g) as [next|];
       [|intros [= <-]; etrans; apply graph_remove_subseteq]);
    [done|].
  intros Hrec. apply IH in Hrec.
  etrans; [exact Hrec|]. etrans; apply graph_remove_subseteq.
Qed.

Lemma clearAll_subseteq cols g g' : clearAll cols g = Ok g' → g' ⊆ g.
Proof.
  revert g. induction cols as [|col cols IH]; intros g; simpl.
  - by intros [= <-].
  - destruct (Collection_clear (size g) col g) as [g1|e] eqn:Hc; simpl; [|done].
    intros Hrec. apply IH in Hrec. apply Collection_clear_subseteq in Hc.
    by etrans.
Qed.

Lemma foldl_remove_spec pats g (t : triple) :
  t ∈ foldl (λ g pat, graph_remove pat g) g pats →
  t ∈ g ∧ ∀ pat, pat ∈ pats → matches pat t = false.
Proof.
  revert g. induction pats as [|pat pats IH]; intros g; simpl.
  - intros Ht. split; [done|]. intros pat Hp. by apply elem_of_nil in Hp.
  - intros Ht. apply IH in Ht as [Ht Hall].
    unfold graph_remove in Ht. apply elem_of_filter in Ht as [Hm Ht].
    split; [done|]. intros pat' [->|Hp]%elem_of_cons; auto.
Qed.

Lemma arcsToDrop_spec occurLookup derivedPreds hybrid arcs s rm cl s' :
  arcsToDrop occurLookup derivedPreds hybrid arcs s = (Ok (rm, cl), s') →
  ∀ N prop q, (N, prop, q) ∈ arcs →
    ∃ op, occurLookup !! q = Some op
          ∧ (dropsArc derivedPreds hybrid op = true →
             (Some N, Some prop, Some q) ∈ rm).
Proof.
  revert s rm cl s'.
  induction arcs as [|[[N' prop'] q'] arcs IH]; intros s rm cl s';
    [intros _ N prop q Hin; by apply elem_of_nil in Hin|].
  cbn [arcsToDrop]. destruct (occurLookup !! q') as [op|] eqn:Hq'; [|done].
  destruct (dropsArc derivedPreds hybrid op) eqn:Hd.
  - destruct (Collection_uri (Some N') s) as [colN s1].
    destruct (Collection_uri (graph_value _ _ _) s1) as [colB s2].
    destruct (arcsToDrop _ _ _ arcs s2) as [[[rm' cl']|e] s3] eqn:Hrec; [|done].
    intros [= <- <- <-] N prop q [[= -> -> ->]|Hin]%elem_of_cons.
    + exists op. split; [done|]. intros _. by left.
    + destruct (IH _ _ _ _ Hrec N prop q Hin) as (op' & Hop' & Hrm).
      exists op'. split; [done|]. intros Hd'. do 2 right. auto.
  - intros Hrec N prop q [[= -> -> ->]|Hin]%elem_of_cons.
    + exists op. split; [done|]. congruence.
    + by eapply IH.
Qed.

(** X9.  After the generalization has run, an arc that is still in the
    graph was in it before, its destination is in [occurLookup], and the
    operator found there is a derived predicate, or is one of the hybrid
    predicates to replace, or there are no hybrid predicates to
    replace: the block removes arcs into base predicates only when it is
    given a non-empty [hybridPreds2Replace]. *)
Theorem generalizeSip_remaining_arcs occurLookup derivedPreds hybrid s s'
    N prop q :
  generalizeSip occurLookup derivedPreds hybrid s = (Ok (), s') →
  (N, prop, q) ∈ sip_arcs (graph s') →
  (N, prop, q) ∈ sip_arcs (graph s)
  ∧ ∃ op, occurLookup !! q = Some op
          ∧ (op ∈ derivedPreds ∨ hybrid = None ∨ hybrid = Some []
             ∨ ∃ hs, hybrid = Some hs ∧ op ∈ hs).
Proof.
  unfold generalizeSip.
  pose proof (arcsToDrop_graph occurLookup derivedPreds hybrid
                (sip_arcs (graph s)) s) as Hg.
  destruct (arcsToDrop _ _ _ _ s) as [[[rm cl]|e] s1] eqn:Hdrop; [|done].
  simpl in Hg.
  destruct (clearAll cl _) as [g'|e] eqn:Hclear; [|done].
  intros [= <-]. cbn [graph]. intros Harc.
  apply clearAll_subseteq in Hclear.
  apply elem_of_sip_arcs in Harc as [Htyped Hin].
  apply Hclear in Htyped, Hin.
  apply foldl_remove_spec in Htyped as [Htyped _].
  apply foldl_remove_spec in Hin as [Hin Hkept].
  rewrite Hg in Htyped, Hin.
  assert ((N, prop, q) ∈ sip_arcs (graph s)) as Hold
    by (by apply elem_of_sip_arcs).
  split; [done|].
  destruct (arcsToDrop_spec _ _ _ _ _ _ _ _ Hdrop N prop q Hold)
    as (op & Hop & Hrm).
  exists op. split; [done|].
  destruct (dropsArc derivedPreds hybrid op) eqn:Hd.
  - specialize (Hkept _ (Hrm eq_refl)). simpl in Hkept.
    by rewrite !bool_decide_eq_true_2 in Hkept.
  - unfold dropsArc in Hd. apply andb_false_iff in Hd as [Hd|Hd].
    + left. apply bool_decide_eq_false in Hd. by apply dec_stable.
    + destruct hybrid as [[|x h]|]; [by right; right; left| |by right; left].
      do 3 right. exists (x :: h). split; [done|].
      apply bool_decide_eq_false in Hd. by apply dec_stable.
Qed.

Lemma generalizeSip_remaining_arcs_witness :
  (ex "up", arc0, ex "sg_Z1_Z2") ∈ sip_arcs (graph (oneArcState [Var "Z1"]))
  ∧ ∃ op, sg_lookup !! ex "sg_Z1_Z2" = Some op
          ∧ (op ∈ [ex "sg"] ∨ Some [ex "up"] = None
             ∨ Some [ex "up"] = Some []
             ∨ ∃ hs, Some [ex "up"] = Some hs ∧ op ∈ hs).
Proof.
  apply (generalizeSip_remaining_arcs sg_lookup [ex "sg"] (Some [ex "up"])
           (oneArcState [Var "Z1"])
           (generalizeSip sg_lookup [ex "sg"] (Some [ex "up"])
              (oneArcState [Var "Z1"])).2
           (ex "up") arc0 (ex "sg_Z1_Z2")).
  - apply pair_from_fst. vm_compute. reflexivity.
  - apply (bool_decide_unpack _). vm_compute. exact I.
Defined.

(** ** Arcs written by [SIPGraphArc] and read back *)

Lemma last_ascii_app a b :
  b ≠ EmptyString → last_ascii (a +:+ b) = last_ascii b.
Proof.
  intros Hb. induction a as [|c a IH]; [done|].
  change (String c a +:+ b) with (String c (a +:+ b)).
  cbn [last_ascii]. rewrite IH.
  destruct (a +:+ b) as [|c' r] eqn:Hab; [|done].
  by destruct a, b.
Qed.

Lemma last_ascii_pretty_N_go x s :
  s ≠ EmptyString → last_ascii (pretty_N_go x s) = last_ascii s.
Proof.
  revert s. induction (N.lt_wf_0 x) as [x _ IH]; intros s Hs.
  assert (x = 0 ∨ 0 < x)%N as [->|Hx] by lia; [done|].
  rewrite pretty_N_go_step by done.
  rewrite IH; [|by apply N.div_lt|done].
  cbn [last_ascii]. by destruct s.
Qed.

(** The name of a blank node of the supply ends in a decimal digit. *)
Lemma last_ascii_pretty (k : nat) :
  ∃ d, last_ascii (pretty k) = Some (pretty_N_char d).
Proof.
  unfold pretty, pretty_nat, pretty, pretty_N.
  case_decide as Hk; [by exists 0%N|].
  rewrite pretty_N_go_step by lia.
  rewrite last_ascii_pretty_N_go by done. by eexists.
Qed.

Lemma fresh_name_last ns (k : nat) :
  ∃ d, last_ascii (ns +:+ "N" +:+ pretty k) = Some (pretty_N_char d).
Proof.
  destruct (last_ascii_pretty k) as [d Hd]. exists d.
  assert (pretty k ≠ EmptyString) as Hne.
  { intros Hp. by rewrite Hp in Hd. }
  rewrite last_ascii_app; [|by destruct (pretty k)].
  change ("N" +:+ pretty k) with (String "N" (pretty k)).
  cbn [last_ascii]. by destruct (pretty k).
Qed.

(** The name of an arc is none of the fixed IRIs the graph uses. *)
Lemma arc_name_fresh ns (k : nat) :
  URIRef (ns +:+ "N" +:+ pretty k) ≠ MAGIC_bindings
  ∧ URIRef (ns +:+ "N" +:+ pretty k) ≠ RDF_first
  ∧ URIRef (ns +:+ "N" +:+ pretty k) ≠ RDF_rest
  ∧ URIRef (ns +:+ "N" +:+ pretty k) ≠ RDF_type.
Proof.
  destruct (fresh_name_last ns k) as [d Hd].
  repeat split; intros [= Heq]; rewrite Heq in Hd; vm_compute in Hd;
    injection Hd as Hd; by repeat (discriminate || case_match).
Qed.

(** Appending to a collection adds [rdf:first] and [rdf:rest] triples
    only. *)
Lemma append_new uri item s (t : triple) :
  t ∈ graph (Collection_append uri item s).2 →
  t ∈ graph s ∨ t.1.2 = RDF_first ∨ t.1.2 = RDF_rest.
Proof.
  unfold Collection_append.
  destruct (Collection_end _ _ _) as [last|e]; [|by left].
  case_bool_decide; cbn [snd graph next_bnode new_BNode];
    unfold graph_set, graph_add, graph_remove;
    rewrite ?elem_of_union, ?elem_of_singleton, ?elem_of_filter.
  - intros [->|[->|[->|[_ Ht]]]]; auto.
  - intros [->|[->|Ht]]; auto.
Qed.

Lemma extend_new uri items s (t : triple) :
  t ∈ graph (Collection_extend uri items s).2 →
  t ∈ graph s ∨ t.1.2 = RDF_first ∨ t.1.2 = RDF_rest.
Proof.
  revert s. induction items as [|i items IH]; intros s; [by left|].
  simpl. pose proof (append_new uri i s t) as Ha.
  destruct (Collection_append uri i s) as [[[]|e] s1]; simpl in *; [|done].
  intros Ht. apply IH in Ht as [Ht|Ht]; auto.
Qed.

Lemma graph_value_None s p g :
  (∀ o, (s, p, o) ∉ g) → graph_value s p g = None.
Proof.
  intros Hno. unfold graph_value.
  by rewrite (proj2 (graph_objects_nil s p g) Hno).
Qed.

(** The first item appended to a collection whose root is not yet a
    subject of the graph is stored at the root. *)
Lemma append_at_fresh_root uri item s :
  (∀ p o, (uri, p, o) ∉ graph s) →
  (Collection_append uri item s).1 = Ok ()
  ∧ (uri, RDF_first, item) ∈ graph (Collection_append uri item s).2.
Proof.
  intros Hfresh. unfold Collection_append.
  assert (Collection_end (size (graph s)) uri (graph s) = Ok uri) as ->.
  { destruct (size (graph s)); simpl;
      by rewrite graph_value_None by (intros o; apply Hfresh). }
  rewrite bool_decide_eq_false_2.
  - split; [done|]. cbn [snd graph]. unfold graph_add. set_solver.
  - intros Hne. apply Hne. apply graph_objects_nil. intros o. apply Hfresh.
Qed.

Lemma triple_eq_pred (t1 t2 : triple) : t1 = t2 → t1.1.2 = t2.1.2.
Proof. by intros ->. Qed.

Lemma add_here (t : triple) g : t ∈ graph_add t g.
Proof. unfold graph_add. apply elem_of_union_l. by apply elem_of_singleton. Qed.

Lemma graph_add_nonempty (t : triple) g : graph_add t g ≠ ∅.
Proof.
  intros He. apply (not_elem_of_empty (C:=gset triple) t).
  rewrite <- He. apply add_here.
Qed.

Lemma validSip_bindings g :
  g ≠ ∅ → validSip g = bool_decide (arcs_without_bindings g = []).
Proof.
  intros Hne. unfold validSip. rewrite bool_decide_eq_false_2.
  - by destruct (arcs_without_bindings g).
  - intros Hsz. apply size_empty_iff in Hsz. by apply leibniz_equiv in Hsz.
Qed.

(** X10.  Writing an arc into a graph in which every arc has bindings:
    the graph is a valid SIP afterwards exactly when the arc was given
    at least one variable.  An arc with no variable makes the graph
    invalid. *)
Theorem SIPGraphArc_validSip skolem_ns left right variables headPassing
    s arc s' :
  fresh_supply skolem_ns s →
  arcs_without_bindings (graph s) = [] →
  SIPGraphArc skolem_ns left right variables headPassing s = (Ok arc, s') →
  validSip (graph s') = nonnil variables.
Proof.
  intros Hfresh Hvalid. unfold SIPGraphArc.
  cbn [new_BNode graph next_bnode term_str].
  set (a := URIRef (skolem_ns +:+ "N" +:+ pretty (next_bnode s))).
  set (c := BNode ("N" +:+ pretty (S (next_bnode s)))).
  set (s0 := St (graph_add (a, RDF_type, MAGIC_SipArc) (graph s))
                (S (S (next_bnode s)))).
  destruct (arc_name_fresh skolem_ns (next_bnode s))
    as (Hab & Haf & Har & Hat). fold a in Hab, Haf, Har, Hat.
  assert (∀ p o, (c, p, o) ∉ graph s0) as Hc.
  { intros p o. cbn [s0 graph]. unfold graph_add.
    rewrite elem_of_union, elem_of_singleton. intros [[=]|Hin].
    destruct (Hfresh (S (next_bnode s)) p o) as [Hb _]; [lia|]. by apply Hb. }
  pose proof (λ t, extend_new c variables s0 t) as Hnew.
  pose proof (λ t, extend_keeps c variables s0 t) as Hkeep.
  assert (variables ≠ [] →
          ∃ v, (c, RDF_first, v) ∈ graph (Collection_extend c variables s0).2)
    as Hhead.
  { destruct variables as [|v vs]; [done|]. intros _. exists v.
    destruct (append_at_fresh_root c v s0 Hc) as [Hok Hin].
    cbn [Collection_extend].
    destruct (Collection_append c v s0) as [[[]|e] s1]; simpl in Hok, Hin;
      [|done].
    by apply extend_keeps. }
  assert (variables = [] →
          graph (Collection_extend c variables s0).2 = graph s0) as Hnone.
  { by intros ->. }
  destruct (Collection_extend c variables s0) as [[[]|e] s1]; [|done].
  intros [= <- <-]. cbn [graph snd] in *.
  rewrite validSip_bindings by apply graph_add_nonempty.
  destruct variables as [|v vs]; cbn [nonnil].
  - (* no variable: the bindings list of the new arc is empty *)
    apply bool_decide_eq_false. intros Hall.
    destruct (proj1 (arcs_without_bindings_nil _) Hall a c) as [w Hw].
    { apply add_keeps, add_here. }
    rewrite (Hnone eq_refl) in Hw. cbn [s0 graph] in Hw.
    unfold graph_add in Hw.
    rewrite !elem_of_union, !elem_of_singleton in Hw.
    destruct Hw as [Hw|[Hw|[Hw|Hw]]];
      try (apply triple_eq_pred in Hw; cbn [fst snd] in Hw).
    + exact (Haf (eq_sym Hw)).
    + discriminate Hw.
    + discriminate Hw.
    + destruct (Hfresh (S (next_bnode s)) RDF_first w) as [Hb _]; [lia|].
      by apply Hb.
  - (* at least one variable *)
    apply bool_decide_eq_true. apply arcs_without_bindings_nil.
    intros x b Hx. unfold graph_add in Hx.
    rewrite !elem_of_union, !elem_of_singleton in Hx.
    destruct Hx as [Hx|[Hx|Hx]].
    + apply triple_eq_pred in Hx. cbn [fst snd] in Hx.
      destruct (Hab (eq_sym Hx)).
    + assert (b = c) as -> by congruence.
      destruct Hhead as [w Hw]; [done|]. exists w.
      by do 2 apply add_keeps.
    + apply Hnew in Hx as [Hx|[Hx|Hx]]; [|discriminate Hx..].
      cbn [s0 graph] in Hx. unfold graph_add in Hx.
      rewrite elem_of_union, elem_of_singleton in Hx.
      destruct Hx as [Hx|Hx];
        [apply triple_eq_pred in Hx; discriminate Hx|].
      destruct (proj1 (arcs_without_bindings_nil _) Hvalid x b Hx) as [w Hw].
      exists w. do 2 apply add_keeps. apply Hkeep; [done|].
      cbn [s0 graph]. by apply add_keeps.
Qed.

Lemma SIPGraphArc_validSip_witness :
  validSip (graph (oneArcState [Var "Z1"])) = nonnil [Var "Z1"].
Proof.
  unfold oneArcState.
  apply (SIPGraphArc_validSip "http://example.org/skolem#" (ex "up")
           (ex "sg_Z1_Z2") [Var "Z1"] false (St ∅ 0) arc0).
  - intros k p o _. split; apply not_elem_of_empty.
  - reflexivity.
  - apply pair_from_fst. vm_compute. reflexivity.
Defined.

(** What [SIPGraphArc] leaves in the graph, when the supply of blank
    nodes is fresh: the arc [a] and its bindings collection [c]. *)
Lemma SIPGraphArc_inv skolem_ns left right variables headPassing s arc s' :
  fresh_supply skolem_ns s →
  SIPGraphArc skolem_ns left right variables headPassing s = (Ok arc, s') →
  let a := URIRef (skolem_ns +:+ "N" +:+ pretty (next_bnode s)) in
  let c := BNode ("N" +:+ pretty (S (next_bnode s))) in
  arc = a
  ∧ ∃ g1,
      graph s' = graph_add (left, a, right)
                   (graph_add (a, MAGIC_bindings, c) g1)
      ∧ (∀ t : triple, t ∈ g1 →
           t = (a, RDF_type, MAGIC_SipArc) ∨ t ∈ graph s
           ∨ t.1.2 = RDF_first ∨ t.1.2 = RDF_rest)
      ∧ (a, RDF_type, MAGIC_SipArc) ∈ g1
      ∧ (∀ v vs, variables = v :: vs → (c, RDF_first, v) ∈ g1).
Proof.
  intros Hfresh Hrun a c. unfold SIPGraphArc in Hrun.
  cbn [new_BNode graph next_bnode term_str] in Hrun. fold a c in Hrun.
  set (s0 := St (graph_add (a, RDF_type, MAGIC_SipArc) (graph s))
                (S (S (next_bnode s)))) in Hrun.
  assert (∀ p o, (c, p, o) ∉ graph s0) as Hc.
  { intros p o. cbn [s0 graph]. unfold graph_add.
    rewrite elem_of_union, elem_of_singleton. intros [[=]|Hin].
    destruct (Hfresh (S (next_bnode s)) p o) as [Hb _]; [lia|]. by apply Hb. }
  pose proof (λ t, extend_new c variables s0 t) as Hnew.
  pose proof (extend_keeps c variables s0 (a, RDF_type, MAGIC_SipArc))
    as Hkeep.
  assert (∀ v vs, variables = v :: vs →
            (c, RDF_first, v) ∈ graph (Collection_extend c variables s0).2)
    as Hhead.
  { intros v vs ->.
    destruct (append_at_fresh_root c v s0 Hc) as [Hok Hin].
    cbn [Collection_extend].
    destruct (Collection_append c v s0) as [[[]|e] s1]; simpl in Hok, Hin;
      [|done].
    by apply extend_keeps. }
  destruct (Collection_extend c variables s0) as [[[]|e] s1]; [|done].
  injection Hrun as <- <-. split; [done|]. exists (graph s1).
  cbn [graph snd] in *. repeat split; [| |done].
  - intros t Ht. apply Hnew in Ht as [Ht|Ht]; [|by do 2 right].
    cbn [s0 graph] in Ht. unfold graph_add in Ht.
    apply elem_of_union in Ht as [Ht|Ht]; [|auto].
    left. by apply elem_of_singleton in Ht.
  - apply Hkeep; [done|]. apply add_here.
Qed.

Lemma graph_value_unique s p g x :
  (s, p, x) ∈ g → (∀ o, (s, p, o) ∈ g → o = x) → graph_value s p g = Some x.
Proof.
  intros Hin Huniq. unfold graph_value.
  destruct (graph_objects s p g) as [|o l] eqn:Ho.
  - by apply (proj1 (graph_objects_nil s p g) Ho x) in Hin.
  - simpl. f_equal. apply Huniq, elem_of_graph_objects. rewrite Ho. by left.
Qed.

Lemma Collection_uri_truthy u s :
  truthy u = true → Collection_uri (Some u) s = (u, s).
Proof. intros Hu. simpl. by rewrite Hu. Qed.

Lemma IncomingSIPArcs_from_graph ts s :
  graph (IncomingSIPArcs_from ts s).2 = graph s.
Proof.
  revert s. induction ts as [|[[subj p] o] ts IH]; intros s; [done|].
  cbn [IncomingSIPArcs_from]. case_bool_decide; [|apply IH].
  set (r1 := if bool_decide _ then _ else _).
  assert (graph r1.2 = graph s) as H1.
  { unfold r1. case_bool_decide; [done|].
    pose proof (Collection_uri_graph (Some subj) s) as Hc.
    by destruct (Collection_uri (Some subj) s). }
  destruct r1 as [src s1]. cbn [snd] in H1.
  pose proof (Collection_uri_graph (graph_value p MAGIC_bindings (graph s1)) s1)
    as H2.
  destruct (Collection_uri _ s1) as [b s2]. cbn [snd] in H2.
  pose proof (IH s2) as H3.
  destruct (IncomingSIPArcs_from ts s2) as [more s3]. cbn [snd] in *.
  congruence.
Qed.

Lemma IncomingSIPArcs_from_elem ts s subj p o b :
  (subj, p, o) ∈ ts →
  (p, RDF_type, MAGIC_SipArc) ∈ graph s →
  truthy subj = true →
  graph_value p MAGIC_bindings (graph s) = Some b → truthy b = true →
  (if bool_decide ((subj, RDF_type, MAGIC_BoundHeadPredicate) ∈ graph s)
   then BoundHead subj else SourceCollection subj, b)
  ∈ (IncomingSIPArcs_from ts s).1.
Proof.
  intros Hin Htyped Hsubj Hb Htb. revert s Htyped Hb.
  induction ts as [|[[subj' p'] o'] ts IH]; intros s Htyped Hb;
    [by apply elem_of_nil in Hin|].
  cbn [IncomingSIPArcs_from].
  apply elem_of_cons in Hin as [Heq|Hin].
  - injection Heq as <- <- <-.
    rewrite (bool_decide_eq_true_2 _ Htyped).
    set (r1 := if bool_decide _ then (BoundHead subj, s) else _).
    assert (r1 = (if bool_decide
                       ((subj, RDF_type, MAGIC_BoundHeadPredicate) ∈ graph s)
                  then BoundHead subj else SourceCollection subj, s)) as ->.
    { unfold r1. case_bool_decide; [done|].
      by rewrite Collection_uri_truthy. }
    rewrite Hb, (Collection_uri_truthy b s Htb).
    destruct (IncomingSIPArcs_from ts s) as [more s3]. by left.
  - destruct (bool_decide ((p', RDF_type, MAGIC_SipArc) ∈ graph s));
      [|by apply IH].
    assert (∀ src s1, graph s1 = graph s →
      (if bool_decide ((subj, RDF_type, MAGIC_BoundHeadPredicate) ∈ graph s)
       then BoundHead subj else SourceCollection subj, b)
      ∈ (let '(b', s2) :=
           Collection_uri (graph_value p' MAGIC_bindings (graph s1)) s1 in
         let '(more, s3) := IncomingSIPArcs_from ts s2 in
         ((src, b') :: more, s3)).1) as Hstep.
    { intros src s1 H1.
      pose proof (Collection_uri_graph
                    (graph_value p' MAGIC_bindings (graph s1)) s1) as H2.
      destruct (Collection_uri _ s1) as [b' s2]. cbn [snd] in H2.
      assert (graph s2 = graph s) as Hg by congruence.
      specialize (IH Hin s2). rewrite Hg in IH. specialize (IH Htyped Hb).
      destruct (IncomingSIPArcs_from ts s2) as [more s3]. by right. }
    destruct (bool_decide
                ((subj', RDF_type, MAGIC_BoundHeadPredicate) ∈ graph s)).
    + by apply Hstep.
    + pose proof (Collection_uri_graph (Some subj') s) as Hc.
      destruct (Collection_uri (Some subj') s) as [c s1]. by apply Hstep.
Qed.

(** X11.  An arc written by [SIPGraphArc] is read back by
    [IncomingSIPArcs] at its destination: one of the pairs yielded has
    [left] as its source (the head predicate itself when it is typed as
    a bound head predicate, the collection rooted at [left] when not)
    and, as its bindings, the collection the arc's [magic:bindings]
    points to, whose first item is the first variable given. *)
Theorem IncomingSIPArcs_reads_arc skolem_ns left right variables headPassing
    s arc s' :
  fresh_supply skolem_ns s → truthy left = true →
  SIPGraphArc skolem_ns left right variables headPassing s = (Ok arc, s') →
  ∃ bindingsCol,
    (if bool_decide ((left, RDF_type, MAGIC_BoundHeadPredicate) ∈ graph s')
     then BoundHead left else SourceCollection left, bindingsCol)
    ∈ (IncomingSIPArcs right s').1
    ∧ (arc, MAGIC_bindings, bindingsCol) ∈ graph s'
    ∧ ∀ v vs, variables = v :: vs → (bindingsCol, RDF_first, v) ∈ graph s'.
Proof.
  intros Hfresh Hleft Hrun.
  pose proof (SIPGraphArc_adds_arc _ _ _ _ _ _ _ _ Hrun) as Harc.
  apply elem_of_sip_arcs in Harc as [Htyped Hin].
  destruct (SIPGraphArc_inv _ _ _ _ _ _ _ _ Hfresh Hrun)
    as (-> & g1 & Hg & Hg1 & _ & Hhead).
  set (a := URIRef (skolem_ns +:+ "N" +:+ pretty (next_bnode s))) in *.
  set (c := BNode ("N" +:+ pretty (S (next_bnode s)))) in *.
  destruct (arc_name_fresh skolem_ns (next_bnode s)) as (Hab & _).
  fold a in Hab.
  assert ((a, MAGIC_bindings, c) ∈ graph s') as Hbind.
  { rewrite Hg. apply add_keeps, add_here. }
  exists c. repeat split; [|done|].
  - unfold IncomingSIPArcs.
    apply (IncomingSIPArcs_from_elem _ _ left a right c); try done.
    + apply elem_of_filter_bool. split; [|by apply elem_of_elements].
      simpl. by rewrite bool_decide_eq_true_2.
    + apply graph_value_unique; [done|]. intros o Ho. rewrite Hg in Ho.
      unfold graph_add in Ho.
      rewrite !elem_of_union, !elem_of_singleton in Ho.
      destruct Ho as [Ho|[Ho|Ho]].
      * apply triple_eq_pred in Ho. cbn [fst snd] in Ho.
        destruct (Hab (eq_sym Ho)).
      * congruence.
      * apply Hg1 in Ho as [Ho|[Ho|[Ho|Ho]]]; try discriminate Ho.
        destruct (Hfresh (next_bnode s) MAGIC_bindings o) as [_ Hb]; [lia|].
        by destruct Hb.
  - intros v vs Hv. rewrite Hg. do 2 apply add_keeps. by eapply Hhead.
Qed.

Lemma IncomingSIPArcs_reads_arc_witness :
  ∃ bindingsCol,
    (if bool_decide ((ex "up", RDF_type, MAGIC_BoundHeadPredicate)
                     ∈ graph (oneArcState [Var "Z1"]))
     then BoundHead (ex "up") else SourceCollection (ex "up"), bindingsCol)
    ∈ (IncomingSIPArcs (ex "sg_Z1_Z2") (oneArcState [Var "Z1"])).1
    ∧ (arc0, MAGIC_bindings, bindingsCol) ∈ graph (oneArcState [Var "Z1"])
    ∧ ∀ v vs, [Var "Z1"] = v :: vs →
        (bindingsCol, RDF_first, v) ∈ graph (oneArcState [Var "Z1"]).
Proof.
  unfold oneArcState.
  apply (IncomingSIPArcs_reads_arc "http://example.org/skolem#" (ex "up")
           (ex "sg_Z1_Z2") [Var "Z1"] false (St ∅ 0) arc0).
  - intros k p o _. split; apply not_elem_of_empty.
  - reflexivity.
  - apply pair_from_fst. vm_compute. reflexivity.
Defined.

Lemma IncomingSIPArcs_from_arcless ts s :
  arcless (graph s) → IncomingSIPArcs_from ts s = ([], s).
Proof.
  intros Hs. induction ts as [|[[subj p] o] ts IH]; [done|].
  cbn [IncomingSIPArcs_from]. rewrite bool_decide_eq_false_2; [done|].
  apply Hs.
Qed.

(** X12.  Whatever the clause, the adornment and the options, no arc can
    be read back from the graph [BuildNaturalSIP] returns:
    [IncomingSIPArcs] yields nothing for any predicate occurrence. *)
Theorem IncomingSIPArcs_of_BuildNaturalSIP `{PyRuntime} clause derivedPreds
    adornedHead hybridPreds2Replace ignoreUnboundDPreds g predOcc n :
  BuildNaturalSIP clause derivedPreds adornedHead hybridPreds2Replace
    ignoreUnboundDPreds = Ok g →
  (IncomingSIPArcs predOcc (St (triples g) n)).1 = [].
Proof.
  intros Hb. apply BuildNaturalSIP_arcless in Hb.
  unfold IncomingSIPArcs. by rewrite IncomingSIPArcs_from_arcless.
Qed.

Lemma IncomingSIPArcs_of_BuildNaturalSIP_witness :
  (IncomingSIPArcs (ex "sg") (St ∅ 0)).1 = [].
Proof.
  apply (@IncomingSIPArcs_of_BuildNaturalSIP structuralRuntime sg_rule
           [ex "sg"] sg_bf None true (SIPGraph ∅ (And [])) (ex "sg") 0).
  vm_compute. reflexivity.
Defined.

(** ** The predicates of a query *)

Lemma derivedPredicateFromTriple_sound self t d :
  derivedPredicateFromTriple self t = Some d →
  d ∈ derivedPredicates self ∨ d ∈ hybridPredicates self.
Proof.
  destruct t as [[s p] o]. unfold derivedPredicateFromTriple.
  destruct (bool_decide (p ∈ derivedPredicates self)) eqn:Hd;
    [intros [= <-]; left; by apply bool_decide_eq_true in Hd|].
  destruct (bool_decide (p ∈ hybridPredicates self)) eqn:Hh;
    [intros [= <-]; right; by apply bool_decide_eq_true in Hh|].
  cbn [orb]. destruct (bool_decide (p = RDF_type) && bool_decide (o ≠ p));
    cbn [andb]; [|done].
  destruct (bool_decide (o ∈ derivedPredicates self)) eqn:Hod;
    [intros [= <-]; left; by apply bool_decide_eq_true in Hod|].
  destruct (bool_decide (o ∈ hybridPredicates self)) eqn:Hoh;
    [intros [= <-]; right; by apply bool_decide_eq_true in Hoh|].
  done.
Qed.

(** X13.  [getDerivedPredicates] yields derived or hybrid predicates
    only.  On an expression made of graph patterns and binary operators
    it does not raise and yields the derived predicates of the patterns
    from left to right; it raises [NotImplementedError] exactly when
    the expression holds a node of another kind. *)
Theorem getDerivedPredicates_sound self expr :
  (∀ d, d ∈ (getDerivedPredicates self expr).1 →
     d ∈ derivedPredicates self ∨ d ∈ hybridPredicates self)
  ∧ ((getDerivedPredicates self expr).2 = None ↔ supported expr = true)
  ∧ (supported expr = true →
     (getDerivedPredicates self expr).1
     = omap (λ '(s, p, o, func), derivedPredicateFromTriple self (s, p, o))
            (patterns_of expr)).
Proof.
  induction expr as [patterns|l IHl r IHr|name].
  - repeat split; try done. cbn [getDerivedPredicates fst].
    intros d Hd. apply list_elem_of_omap in Hd as ([[[s p] o] func] & _ & Hd).
    by eapply derivedPredicateFromTriple_sound.
  - destruct IHl as (Hl1 & Hl2 & Hl3), IHr as (Hr1 & Hr2 & Hr3).
    cbn [getDerivedPredicates supported patterns_of].
    destruct (getDerivedPredicates self l) as [tl [el|]];
      destruct (getDerivedPredicates self r) as [tr er]; cbn [fst snd] in *.
    + assert (supported l = false) as ->.
      { destruct (supported l); [|done]. destruct Hl2 as [_ Hl2].
        by specialize (Hl2 eq_refl). }
      repeat split; try done.
    + rewrite (proj1 Hl2 eq_refl) in *. cbn [andb]. repeat split.
      * intros d [Hd|Hd]%elem_of_app; auto.
      * apply Hr2.
      * apply Hr2.
      * intros Hs. rewrite omap_app, Hl3, Hr3; done.
  - repeat split; try done. intros d Hd. by apply elem_of_nil in Hd.
Qed.

(** ** Hybrid predicates in a goal *)

Lemma derived_name_truthy p : truthy (derived_name p) = true.
Proof. unfold derived_name, truthy. simpl. by destruct (term_str p). Qed.

Lemma derived_name_not_type p : derived_name p ≠ RDF_type.
Proof.
  unfold derived_name. intros [= Heq].
  apply (f_equal last_ascii) in Heq. by rewrite last_ascii_app in Heq.
Qed.

(** X14.  [hybridPredQueryPreparation] never raises.  It returns the
    goal as it is when the operator of the goal is not a hybrid
    predicate; when it is, the goal returned has the same subject and
    its operator is the suffixed symbol [op_derived]. *)
Theorem hybridPredQueryPreparation_operator self tp op :
  GetOp (BuildUnitermFromTuple tp) = Ok op →
  ∃ tp', hybridPredQueryPreparation self tp = Ok tp'
    ∧ if bool_decide (op ∈ hybridPredicates self)
      then GetOp (BuildUnitermFromTuple tp') = Ok (derived_name op)
           ∧ tp'.1.1 = tp.1.1
      else tp' = tp.
Proof.
  destruct tp as [[s p] o]. unfold hybridPredQueryPreparation.
  intros Hop. rewrite Hop. cbn [mbind res_bind rbind].
  destruct (bool_decide (op ∈ hybridPredicates self)); [|by eexists].
  eexists. split; [done|]. cbn [BuildUnitermFromTuple setOperator].
  pose proof (derived_name_truthy op) as Ht.
  pose proof (derived_name_not_type op) as Hn.
  case_bool_decide as Hp; cbn [toRDFTuple BuildUnitermFromTuple GetOp fst snd].
  - by rewrite bool_decide_eq_true_2, Ht.
  - by rewrite bool_decide_eq_false_2.
Qed.

Lemma hybridPredQueryPreparation_operator_witness :
  ∃ tp', hybridPredQueryPreparation hybrid_store goal_p = Ok tp'
    ∧ if bool_decide (ex "p" ∈ hybridPredicates hybrid_store)
      then GetOp (BuildUnitermFromTuple tp') = Ok (derived_name (ex "p"))
           ∧ tp'.1.1 = goal_p.1.1
      else tp' = goal_p.
Proof.
  apply (hybridPredQueryPreparation_operator hybrid_store goal_p (ex "p")).
  reflexivity.
Defined.

(** ** What [hybridPredicatePreparation] returns *)

Lemma hybridPredicatePreparation_derived `{TermSetOrder} self h d rules h' :
  hybridPredicatePreparation self h = Some (d, rules, h') →
  d ≡ₚ remove_dups
         (List.filter (λ i, bool_decide (i ∉ hybridPredicates self))
                      (derivedPredicates self)
          ++ (derived_name <$> hybridPredicates self)).
Proof.
  unfold hybridPredicatePreparation.
  destruct (deepcopy_all (idb self) h) as [[copies h1]|]; simpl; [|done].
  destruct (appendBridges _ _ _ _) as [rules' h2].
  intros [= <- _ _]. apply term_order_perm.
Qed.

(** X15.  The derived predicates [hybridPredicatePreparation] returns
    are, without repetition, the derived predicates that are not hybrid
    together with the suffixed symbol [p_derived] of every hybrid
    predicate [p]. *)
Theorem hybridPredicatePreparation_derived_predicates `{TermSetOrder} self h
    new_derived_predicates new_rules h' :
  hybridPredicatePreparation self h
  = Some (new_derived_predicates, new_rules, h') →
  NoDup new_derived_predicates
  ∧ ∀ x, x ∈ new_derived_predicates ↔
         (x ∈ derivedPredicates self ∧ x ∉ hybridPredicates self)
         ∨ ∃ p, p ∈ hybridPredicates self ∧ x = derived_name p.
Proof.
  intros Hprep. apply hybridPredicatePreparation_derived in Hprep.
  split.
  - rewrite Hprep. apply NoDup_remove_dups.
  - intros x. rewrite Hprep, elem_of_remove_dups, elem_of_app.
    rewrite elem_of_filter_bool, bool_decide_eq_true, list_elem_of_fmap.
    split.
    + intros [[Hx1 Hx2]|(p & -> & Hp)]; [by left|right; by exists p].
    + intros [[Hx1 Hx2]|(p & Hp & ->)]; [by left|right; by exists p].
Qed.

Lemma hybridPredicatePreparation_derived_predicates_witness :
  ∃ r, hybridPredicatePreparation (H:=insertionOrder) hybrid_store hybrid_heap
       = Some r
     ∧ NoDup r.1.1
     ∧ ∀ x, x ∈ r.1.1 ↔
            (x ∈ derivedPredicates hybrid_store
             ∧ x ∉ hybridPredicates hybrid_store)
            ∨ ∃ p, p ∈ hybridPredicates hybrid_store ∧ x = derived_name p.
Proof.
  eexists. split; [vm_compute; reflexivity|].
  eapply (@hybridPredicatePreparation_derived_predicates insertionOrder
            hybrid_store hybrid_heap).
  vm_compute. reflexivity.
Defined.

(** X16.  Once the store has taken over the result of
    [hybridPredicatePreparation], a goal over a hybrid predicate that
    went through [hybridPredQueryPreparation] is a derived goal for it:
    [derivedPredicateFromTriple] does not answer [None], so the
    conjunctive strategy sends it to the decision procedure. *)
Theorem prepared_goal_is_derived `{TermSetOrder} self h d rules h' tp op :
  hybridPredicatePreparation self h = Some (d, rules, h') →
  GetOp (BuildUnitermFromTuple tp) = Ok op →
  op ∈ hybridPredicates self →
  ∃ tp', hybridPredQueryPreparation self tp = Ok tp'
    ∧ is_Some (derivedPredicateFromTriple (with_prepared self d rules) tp').
Proof.
  intros Hprep Hop Hhyb.
  apply hybridPredicatePreparation_derived in Hprep.
  assert (derived_name op ∈ d) as Hin.
  { rewrite Hprep, elem_of_remove_dups, elem_of_app. right.
    by apply list_elem_of_fmap_2. }
  destruct tp as [[s p] o]. unfold hybridPredQueryPreparation.
  rewrite Hop. cbn [mbind res_bind rbind].
  rewrite bool_decide_eq_true_2 by done. eexists. split; [done|].
  cbn [BuildUnitermFromTuple setOperator].
  unfold derivedPredicateFromTriple, with_prepared.
  cbn [derivedPredicates hybridPredicates].
  case_bool_decide as Hp; cbn [toRDFTuple].
  - subst p.
    destruct (bool_decide (RDF_type ∈ d) || bool_decide (RDF_type ∈ _));
      [by eexists|].
    rewrite (bool_decide_eq_true_2 (RDF_type = RDF_type)) by done.
    rewrite (bool_decide_eq_true_2 (derived_name op ≠ RDF_type))
      by apply derived_name_not_type.
    rewrite (bool_decide_eq_true_2 (derived_name op ∈ d)) by done.
    by eexists.
  - rewrite (bool_decide_eq_true_2 (derived_name op ∈ d)) by done.
    by eexists.
Qed.

Lemma prepared_goal_is_derived_witness :
  ∃ tp', hybridPredQueryPreparation hybrid_store goal_p = Ok tp'
    ∧ is_Some (derivedPredicateFromTriple
                 (with_prepared hybrid_store [derived_name (ex "p")] [1; 2])
                 tp').
Proof.
  eapply (@prepared_goal_is_derived insertionOrder hybrid_store hybrid_heap
            [derived_name (ex "p")] [1; 2] _ goal_p (ex "p")).
  - vm_compute. reflexivity.
  - reflexivity.
  - by left.
Defined.

Lemma deepcopy_all_length rules h new_rules h' :
  deepcopy_all rules h = Some (new_rules, h') →
  length new_rules = length rules.
Proof.
  revert h new_rules h'.
  induction rules as [|r rules IH]; intros h new_rules h'; simpl.
  - by intros [= <- _].
  - destruct (deepcopy r h) as [[r' h1]|]; simpl; [|done].
    destruct (deepcopy_all rules h1) as [[rs' h2]|] eqn:Hrs; simpl; [|done].
    intros [= <- _]. simpl. f_equal. by eapply IH.
Qed.

Lemma ReplaceHybridPredcates_allocated rules hybrid h l :
  is_Some (h !! l) → is_Some (ReplaceHybridPredcates rules hybrid h !! l).
Proof.
  unfold ReplaceHybridPredcates. revert h.
  induction rules as [|r rules IH]; intros h Hl; [done|].
  simpl. apply IH. destruct (decide (r = l)) as [->|Hne].
  - rewrite lookup_alter_eq. by apply fmap_is_Some.
  - by rewrite lookup_alter_ne.
Qed.

Lemma appendBridges_rules hybrid program new_rules h rules' h' :
  appendBridges hybrid program new_rules h = (rules', h') →
  Forall (λ r, is_Some (h !! r)) new_rules →
  length rules' = length new_rules + length hybrid
  ∧ Forall (λ r, is_Some (h' !! r)) rules'.
Proof.
  revert new_rules h. induction hybrid as [|p hybrid IH];
    intros new_rules h; simpl.
  - intros [= <- <-] Hall. split; [lia|done].
  - intros Hrec Hall. apply IH in Hrec as [Hlen Hrec].
    + split; [|done]. rewrite Hlen, length_app. simpl. lia.
    + apply Forall_app. split.
      * eapply Forall_impl; [exact Hall|]. intros x [c Hx]. exists c.
        eapply lookup_weaken; [exact Hx|].
        apply insert_subseteq, not_elem_of_dom, is_fresh.
      * constructor; [|done]. rewrite lookup_insert_eq. by eexists.
Qed.

(** X17.  The rule set [hybridPredicatePreparation] returns has one rule
    for each rule of [self.idb] and one more for each hybrid predicate,
    and every one of them is an object made by the call: its address
    was free before and is allocated after. *)
Theorem hybridPredicatePreparation_rules `{TermSetOrder} self h
    new_derived_predicates new_rules h' :
  hybridPredicatePreparation self h
  = Some (new_derived_predicates, new_rules, h') →
  length new_rules = length (idb self) + length (hybridPredicates self)
  ∧ Forall (λ r, h !! r = None ∧ is_Some (h' !! r)) new_rules.
Proof.
  intros Hprep.
  pose proof (hybridPredicatePreparation_new_rules _ _ _ _ _ Hprep) as Hnew.
  revert Hprep. unfold hybridPredicatePreparation.
  destruct (deepcopy_all (idb self) h) as [[copies h1]|] eqn:Hcopy;
    simpl; [|done].
  destruct (appendBridges _ _ _ _) as [rules' h2] eqn:Hbridge.
  intros [= _ <- <-].
  pose proof (deepcopy_all_length _ _ _ _ Hcopy) as Hlen.
  apply deepcopy_all_frame in Hcopy as [_ Hcopies].
  apply appendBridges_rules in Hbridge as [Hlen' Halloc].
  - split; [lia|].
    rewrite Forall_forall in Hnew, Halloc. apply Forall_forall.
    intros r Hr. split; auto.
  - eapply Forall_impl; [exact Hcopies|]. intros r [_ Hr].
    by apply ReplaceHybridPredcates_allocated.
Qed.

Lemma hybridPredicatePreparation_rules_witness :
  ∃ r, hybridPredicatePreparation (H:=insertionOrder) hybrid_store hybrid_heap
       = Some r
     ∧ length r.1.2
       = length (idb hybrid_store) + length (hybridPredicates hybrid_store)
     ∧ Forall (λ a, hybrid_heap !! a = None ∧ is_Some (r.2 !! a)) r.1.2.
Proof.
  eexists. split; [vm_compute; reflexivity|].
  eapply (@hybridPredicatePreparation_rules insertionOrder hybrid_store
            hybrid_heap).
  vm_compute. reflexivity.
Defined.

(** ** Invariants of the conjunctive strategy *)

Section StrategyInvariants.
Context (self : store).
Context (evaluate : triple → env → bool + list env).
Context (solveGoal : triple → env → list answer).

Local Abbreviation strategy :=
  (conjunctiveSipStrategy self evaluate solveGoal).
Local Abbreviation strategy_fuel :=
  (conjunctiveSipStrategy_fuel self evaluate solveGoal).

Lemma mergeMappings1To2_extends (m1 m2 m : env) :
  mergeMappings1To2 m1 m2 = Some m → m1 ⊆ m.
Proof.
  unfold mergeMappings1To2. case_decide; [|done].
  intros [= <-]. apply map_union_subseteq_l.
Qed.

Lemma conjunctiveSipStrategy_fuel_extends fuel goals bindings ys it :
  strategy_fuel fuel goals bindings = Ok (ys, it) →
  Forall (λ y, bindings ⊆ y) ys.
Proof.
  revert goals bindings ys it.
  induction fuel as [|fuel IH]; intros [|tp rest] bindings ys it; simpl;
    try (intros [= <- _]; by apply Forall_singleton).
  destruct (derivedPredicateFromTriple self tp).
  - (* a derived goal *)
    generalize (solveGoal tp bindings) rest. intros answers.
    revert ys it. induction answers as [|a answers IHa]; intros ys it it0.
    { intros [= <- _]. constructor. }
    destruct (match a with
              | AnsDict d =>
                  match mergeMappings1To2 bindings d with
                  | Some m => strategy_fuel fuel it0 m
                  | None => Raise MergeConflict
                  end
              | AnsBool true => strategy_fuel fuel it0 bindings
              | AnsBool false => Ok ([], it0)
              end) as [[ys1 it1]|e] eqn:H1; cbn [mbind res_bind rbind]; [|done].
    cbn [fst snd].
    match goal with
    | |- ?r ≫= _ = _ → _ => destruct r as [[ys2 it2]|e] eqn:H2
    end; cbn [mbind res_bind rbind fst snd]; [|done].
    intros [= <- _]. apply Forall_app. split; [|by eapply IHa].
    destruct a as [d|[]].
    + destruct (mergeMappings1To2 bindings d) as [m|] eqn:Hm.
      * apply IH in H1. apply mergeMappings1To2_extends in Hm.
        eapply Forall_impl; [exact H1|]. intros y Hy. by etrans.
      * done.
    + by apply IH in H1.
    + injection H1 as <- _. constructor.
  - destruct (evaluate tp bindings) as [[]|rt].
    + intros [= <- _]. by apply Forall_singleton.
    + intros [= <- _]. constructor.
    + destruct (rmap _ rt) as [runs|e] eqn:Hruns; cbn [mbind res_bind rbind];
        [|done].
      intros [= <- _]. apply rmap_Forall2 in Hruns.
      apply Forall_concat, Forall_fmap.
      eapply Forall2_Forall_r; [exact Hruns|].
      apply Forall_forall. intros row _ [ys' it'] Hrun. cbn [fst].
      apply IH in Hrun. eapply Forall_impl; [exact Hrun|].
      intros y Hy. etrans; [|exact Hy]. apply map_union_subseteq_l.
Qed.

(** X18.  The conjunctive strategy never loses or changes a binding it
    was given: when it runs to exhaustion, every environment it has
    yielded agrees with [bindings] on every variable [bindings] binds.
    (A run in which a merge fails ends with the exception of the
    merge.) *)
Theorem conjunctiveSipStrategy_extends_bindings goals bindings ys it y :
  conjunctiveSipStrategy self evaluate solveGoal goals bindings = Ok (ys, it) →
  y ∈ ys → bindings ⊆ y.
Proof.
  intros Hrun Hy. apply conjunctiveSipStrategy_fuel_extends in Hrun.
  rewrite Forall_forall in Hrun. by apply Hrun.
Qed.

Lemma rmap_pure {A B} (g : A → B) (l : list A) :
  rmap (λ x, Ok (g x)) l = Ok (g <$> l).
Proof. induction l as [|x l IH]; [done|]. cbn [rmap]. by rewrite IH. Qed.

Lemma concat_singletons (m : env) (rows : list env) :
  concat ((λ row, ([m ∪ row], @nil triple)) <$> rows).*1
  = (λ row, m ∪ row) <$> rows.
Proof.
  induction rows as [|row rows IH]; [done|].
  rewrite !fmap_cons. cbn [concat fst app]. by rewrite IH.
Qed.

Lemma furthest_exhausted (m : env) (rows : list env) :
  foldl furthest [] ((λ row, ([m ∪ row], @nil triple)) <$> rows).*2 = [].
Proof.
  induction rows as [|row rows IH]; [done|].
  rewrite !fmap_cons. cbn [foldl snd]. by rewrite <- IH at 2.
Qed.

(** X19.  The answers of the decision procedure to a derived goal share
    the iterator of the remaining goals.  When the goal has two
    solutions and one base goal follows it, the continuation of the
    first solution consumes that goal and joins the solution with its
    rows; the continuation of the second solution finds the iterator
    exhausted and yields the second solution as it is, without the base
    goal being evaluated for it. *)
Theorem derived_answers_share_the_goals tp tp2 bindings d1 d2 m1 m2 row rows :
  is_Some (derivedPredicateFromTriple self tp) →
  derivedPredicateFromTriple self tp2 = None →
  solveGoal tp bindings = [AnsDict d1; AnsDict d2] →
  mergeMappings1To2 bindings d1 = Some m1 →
  mergeMappings1To2 bindings d2 = Some m2 →
  evaluate tp2 m1 = inr (row :: rows) →
  conjunctiveSipStrategy self evaluate solveGoal [tp; tp2] bindings
  = Ok (((λ r, m1 ∪ r) <$> row :: rows) ++ [m2], []).
Proof.
  intros [dp Hd] Hbase Hsol Hm1 Hm2 Hev.
  unfold conjunctiveSipStrategy. cbn [length conjunctiveSipStrategy_fuel].
  rewrite Hd, Hsol, Hm1, Hbase, Hev, Hm2.
  rewrite (rmap_pure (λ r : env, ([m1 ∪ r], @nil triple)) (row :: rows)).
  cbn [mbind res_bind rbind fst snd].
  rewrite (concat_singletons m1 (row :: rows)).
  rewrite (furthest_exhausted m1 (row :: rows)).
  cbn [mbind res_bind rbind fst snd]. by rewrite app_nil_r.
Qed.

End StrategyInvariants.

Lemma conjunctiveSipStrategy_extends_bindings_witness :
  env_b ⊆ (env_b ∪ {[ Var "Y" := ex "d" ]}) ∪ row_z.
Proof.
  apply (conjunctiveSipStrategy_extends_bindings derived_store
           (λ _ _, inr [row_z]) (λ _ _, [AnsDict {[ Var "Y" := ex "d" ]}])
           [goal_sg; goal_q] env_b
           [(env_b ∪ {[ Var "Y" := ex "d" ]}) ∪ row_z] []
           ((env_b ∪ {[ Var "Y" := ex "d" ]}) ∪ row_z)).
  - vm_compute. reflexivity.
  - by left.
Defined.

Lemma derived_answers_share_the_goals_witness :
  conjunctiveSipStrategy derived_store (λ _ _, inr [row_z])
    (λ _ _, [AnsDict row_a; AnsDict env_b]) [goal_sg; goal_q] ∅
  = Ok (((λ r, (∅ ∪ row_a) ∪ r) <$> [row_z]) ++ [∅ ∪ env_b], []).
Proof.
  apply (derived_answers_share_the_goals derived_store (λ _ _, inr [row_z])
           (λ _ _, [AnsDict row_a; AnsDict env_b]) goal_sg goal_q ∅
           row_a env_b (∅ ∪ row_a) (∅ ∪ env_b) row_z []).
  - by eexists.
  - reflexivity.
  - reflexivity.
  - vm_compute. reflexivity.
  - vm_compute. reflexivity.
  - reflexivity.
Defined.

(** ** [batch_unify] on base predicates *)

Lemma gen_map_pure {A B} (g : A → B) (l : list A) :
  gen_map (λ x, Ok (g x)) l = Gen (g <$> l) None.
Proof.
  induction l as [|x l IH]; [done|]. cbn [gen_map]. by rewrite IH.
Qed.

Lemma gen_map_ok {A B} (f : A → res B) (g : A → B) (l : list A) :
  (∀ x, x ∈ l → f x = Ok (g x)) → gen_map f l = Gen (g <$> l) None.
Proof.
  induction l as [|x l IH]; intros Hf; [done|].
  cbn [gen_map]. rewrite (Hf x) by left. rewrite IH; [done|].
  intros y Hy. apply Hf. by right.
Qed.

(** The pairs [row_dict] builds are the variables zipped with the row. *)
Lemma row_pairs (vars v : list term) n :
  length v ≤ length (drop n vars) →
  rmap (λ '(idx, i), match vars !! idx with
                     | Some k => Ok (k, i)
                     | None => Raise IndexError
                     end) (imap (λ idx i, (n + idx, i)) v)
  = Ok (zip (drop n vars) v).
Proof.
  revert n. induction v as [|x v IH]; intros n Hlen.
  - by destruct (drop n vars).
  - destruct (drop n vars) as [|k ks] eqn:Hd; [simpl in Hlen; lia|].
    assert (vars !! n = Some k) as Hk.
    { rewrite <- (Nat.add_0_r n), <- lookup_drop, Hd. done. }
    assert (drop (S n) vars = ks) as Hks.
    { replace (S n) with (n + 1) by lia.
      rewrite <- (drop_drop vars 1 n), Hd. done. }
    cbn [imap rmap zip zip_with]. rewrite Nat.add_0_r, Hk.
    cbn [rbind].
    rewrite (imap_ext _ (λ idx i, (S n + idx, i)) v);
      [|intros; cbn; f_equal; lia].
    rewrite IH; [by rewrite Hks|]. rewrite Hks. simpl in Hlen. lia.
Qed.

Lemma foldl_zip_fresh (ks v : list term) (acc : env) k :
  k ∉ ks →
  foldl (λ d '(k, i), <[k := i]> d) acc (zip ks v) !! k = acc !! k.
Proof.
  revert v acc. induction ks as [|k0 ks IH]; intros v acc Hk; [done|].
  apply not_elem_of_cons in Hk as [Hne Hk].
  destruct v as [|x v]; [done|]. cbn [zip zip_with foldl].
  rewrite IH by done. by apply lookup_insert_ne.
Qed.

Lemma foldl_zip_lookup (ks v : list term) (acc : env) i k :
  NoDup ks → ks !! i = Some k →
  foldl (λ d '(k, i), <[k := i]> d) acc (zip ks v) !! k
  = match v !! i with Some x => Some x | None => acc !! k end.
Proof.
  revert v acc i. induction ks as [|k0 ks IH]; intros v acc i Hnd Hi; [done|].
  apply NoDup_cons in Hnd as [Hk0 Hnd].
  destruct v as [|x v]; [by destruct i|]. cbn [zip zip_with foldl].
  destruct i as [|i]; simpl in Hi.
  - injection Hi as ->. rewrite foldl_zip_fresh by done.
    by rewrite lookup_insert_eq.
  - rewrite (IH v _ i Hnd Hi). cbn [lookup list_lookup].
    destruct (v !! i); [done|]. apply lookup_insert_ne.
    intros ->. apply Hk0. by eapply list_elem_of_lookup_2.
Qed.

Section BatchUnify.
Context `{TermSetOrder}.
Context (self : store).
Context (evaluate : triple → env → bool + list env).
Context (solveGoal : triple → env → list answer).
Context (select_rows : list condition → list term → list (list term)).
Context (select_values : list condition → list term → list term).

Local Abbreviation unify :=
  (batch_unify self evaluate solveGoal select_rows select_values).
Local Abbreviation uniterms patterns :=
  (BuildUnitermFromTuple <$> ((λ '(s, p, o, g), (s, p, o)) <$> patterns)).

(** X20.  On base predicates with exactly one variable [x] in the
    patterns, [batch_unify] yields one environment per value the store
    returns, in order, each binding [x] to that value. *)
Theorem batch_unify_one_variable patterns x :
  involvesDerived self patterns = false →
  remove_dups (pattern_vars patterns) = [x] →
  unify patterns
  = Gen ((λ v, {[ x := v ]}) <$> select_values (uniterms patterns) [x]) None.
Proof.
  intros Hbase Hx. unfold batch_unify. rewrite Hbase.
  assert (term_order (pattern_vars patterns) = [x]) as ->.
  { apply Permutation_singleton_r. by rewrite term_order_perm, Hx. }
  cbn [length]. case_decide; [lia|].
  apply gen_map_pure.
Qed.

(** X21.  On base predicates with two variables or more, when no row
    the store returns is longer than the list of variables,
    [batch_unify] yields one environment per row, in order, and the
    environment binds the variable at each position to the value of
    the row at that position. *)
Theorem batch_unify_rows patterns :
  let vars := term_order (pattern_vars patterns) in
  let rows := select_rows (uniterms patterns) vars in
  involvesDerived self patterns = false →
  1 < length vars →
  Forall (λ v, length v ≤ length vars) rows →
  ∃ answers,
    unify patterns = Gen answers None
    ∧ length answers = length rows
    ∧ ∀ j v, rows !! j = Some v →
        ∃ a : env, answers !! j = Some a
          ∧ ∀ i k, vars !! i = Some k → a !! k = v !! i.
Proof.
  intros vars rows Hbase Hlen Hrows.
  assert (NoDup vars) as Hnd.
  { unfold vars. rewrite term_order_perm. apply NoDup_remove_dups. }
  set (dict := λ v : list term,
         foldl (λ (d : env) '(k, i), <[k := i]> d) ∅ (zip vars v)).
  exists (dict <$> rows). repeat split.
  - unfold batch_unify. rewrite Hbase. fold vars. fold rows.
    case_decide; [|done]. apply gen_map_ok. intros v Hv.
    rewrite Forall_forall in Hrows. unfold row_dict.
    rewrite (imap_ext _ (λ idx i, (0 + idx, i)) v) by done.
    rewrite row_pairs; [done|]. rewrite drop_0. by apply Hrows.
  - by rewrite length_fmap.
  - intros j v Hj. exists (dict v). rewrite list_lookup_fmap, Hj.
    split; [done|]. intros i k Hi. unfold dict.
    rewrite (foldl_zip_lookup vars v ∅ i k Hnd Hi).
    by destruct (v !! i).
Qed.

End BatchUnify.

Lemma batch_unify_one_variable_witness :
  @batch_unify base_store (λ _ _, inl true) (λ _ _, []) insertionOrder
    (λ _ _, []) (λ _ _, [ex "a"; ex "b"])
    [(Var "X", ex "up", ex "b", ex "g")]
  = Gen ((λ v, {[ Var "X" := v ]}) <$> [ex "a"; ex "b"]) None.
Proof.
  apply (@batch_unify_one_variable insertionOrder base_store
           (λ _ _, inl true) (λ _ _, []) (λ _ _, [])
           (λ _ _, [ex "a"; ex "b"])
           [(Var "X", ex "up", ex "b", ex "g")] (Var "X")).
  - reflexivity.
  - reflexivity.
Defined.

Lemma batch_unify_rows_witness :
  ∃ answers,
    @batch_unify base_store (λ _ _, inl true) (λ _ _, []) insertionOrder
      (λ _ _, [[ex "a"; ex "b"]]) (λ _ _, [])
      [(Var "X", ex "up", Var "Y", ex "g")]
    = Gen answers None
    ∧ length answers = length [[ex "a"; ex "b"]]
    ∧ ∀ j v, [[ex "a"; ex "b"]] !! j = Some v →
        ∃ a : env, answers !! j = Some a
          ∧ ∀ i k, [Var "X"; Var "Y"] !! i = Some k → a !! k = v !! i.
Proof.
  apply (@batch_unify_rows insertionOrder base_store
           (λ _ _, inl true) (λ _ _, []) (λ _ _, [[ex "a"; ex "b"]])
           (λ _ _, []) [(Var "X", ex "up", Var "Y", ex "g")]).
  - reflexivity.
  - vm_compute. lia.
  - repeat constructor.
Defined.

(** ** Namespace bindings *)

Lemma revDict_from_Some (pairs : list (string * term)) (acc : gmap term string)
    v k :
  foldl (λ d '(k, v), <[v := k]> d) acc pairs !! v = Some k →
  (k, v) ∈ pairs ∨ acc !! v = Some k.
Proof.
  revert acc. induction pairs as [|[k0 v0] pairs IH]; intros acc; [by right|].
  cbn [foldl]. intros Hl. apply IH in Hl as [Hl|Hl]; [left; by right|].
  destruct (decide (v0 = v)) as [->|Hne].
  - rewrite lookup_insert_eq in Hl. injection Hl as ->. left. by left.
  - rewrite lookup_insert_ne in Hl by done. by right.
Qed.

Lemma revDict_from_is_Some (pairs : list (string * term))
    (acc : gmap term string) v :
  is_Some (acc !! v) ∨ (∃ k, (k, v) ∈ pairs) →
  is_Some (foldl (λ d '(k, v), <[v := k]> d) acc pairs !! v).
Proof.
  revert acc. induction pairs as [|[k0 v0] pairs IH]; intros acc.
  - intros [Ha|[k Hk]]; [done|by apply elem_of_nil in Hk].
  - cbn [foldl]. intros Hor. apply IH.
    destruct (decide (v0 = v)) as [->|Hne].
    + left. rewrite lookup_insert_eq. by eexists.
    + destruct Hor as [Ha|[k Hk]].
      * left. by rewrite lookup_insert_ne.
      * apply elem_of_cons in Hk as [[= -> ->]|Hk]; [done|]. right. by exists k.
Qed.

Lemma elem_of_items_order `{DictOrder} (d : nsDict) k v :
  (k, v) ∈ items_order d ↔ d !! k = Some v.
Proof. by rewrite items_order_perm, elem_of_map_to_list. Qed.

(** X22.  [prefix] and [namespace] are inverse to each other as far as
    a dictionary allows: the prefix found for a namespace is bound to
    that namespace, and every namespace some prefix is bound to has a
    prefix found for it, in whatever order the dictionary lists its
    items. *)
Theorem prefix_namespace_round_trip `{DictOrder} (nsBindings : nsDict) p ns :
  (prefix nsBindings ns = Some p → namespace nsBindings p = Some ns)
  ∧ (namespace nsBindings p = Some ns →
     ∃ p', prefix nsBindings ns = Some p'
           ∧ namespace nsBindings p' = Some ns).
Proof.
  unfold prefix, namespace, revDict.
  assert (∀ q, foldl (λ d '(k, v), <[v := k]> d) (∅ : gmap term string)
                 (items_order nsBindings) !! ns = Some q →
               nsBindings !! q = Some ns) as Hsound.
  { intros q Hq. apply revDict_from_Some in Hq as [Hq|Hq]; [|done].
    by apply elem_of_items_order. }
  split; [apply Hsound|]. intros Hp.
  destruct (revDict_from_is_Some (items_order nsBindings) ∅ ns) as [q Hq].
  { right. exists p. by apply elem_of_items_order. }
  exists q. split; [done|]. by apply Hsound.
Qed.

(** X23.  After [bind(prefix, namespace)] the prefix is bound to the
    namespace and every other prefix is bound as before; the namespace
    has a prefix, which is bound to it, and [namespaces] lists the new
    pair. *)
Theorem bind_then_lookup `{DictOrder} (nsBindings : nsDict) p ns :
  namespace (bind nsBindings p ns) p = Some ns
  ∧ (∀ p', p' ≠ p →
       namespace (bind nsBindings p ns) p' = namespace nsBindings p')
  ∧ (∃ p', prefix (bind nsBindings p ns) ns = Some p'
           ∧ namespace (bind nsBindings p ns) p' = Some ns)
  ∧ (p, ns) ∈ namespaces (bind nsBindings p ns).
Proof.
  assert (namespace (bind nsBindings p ns) p = Some ns) as Hp.
  { unfold namespace, bind. by rewrite lookup_insert_eq. }
  repeat split; [done| | |].
  - intros p' Hne. unfold namespace, bind. by apply lookup_insert_ne.
  - unfold prefix, revDict.
    destruct (revDict_from_is_Some (items_order (bind nsBindings p ns)) ∅ ns)
      as [q Hq].
    { right. exists p. by apply elem_of_items_order. }
    exists q. split; [done|].
    apply revDict_from_Some in Hq as [Hq|Hq]; [|done].
    by apply elem_of_items_order.
  - unfold namespaces. by apply elem_of_items_order.
Qed.

(** ** More on the introspection functions and the search *)

(** X24.  [iterCondition] never gives an empty sequence (so the folds
    of [BuildNaturalSIP] over it never meet [reduce]'s error for an
    empty sequence): it looks through [Exists], gives the formulae of a
    non-empty [And] or [Or], and gives the condition itself, as the one
    item, in every other case, the empty conjunction included. *)
Theorem iterCondition_items c :
  iterCondition c ≠ []
  ∧ iterCondition (Exists c) = iterCondition c
  ∧ (∀ l, l ≠ [] → iterCondition (And l) = l ∧ iterCondition (Or l) = l)
  ∧ (isLiteral c = true → iterCondition c = [c])
  ∧ iterCondition (And []) = [And []].
Proof.
  split; [|split; [done|split; [|split; [|done]]]].
  - induction c as [u a r|op a0 a1 naf|f IH|fs|fs]; try done;
      by destruct fs.
  - intros l Hl. by destruct l.
  - by destruct c.
Qed.

(** X25.  [getOccurrenceId] records the operator of the literal in the
    lookup table under the identifier it returns and changes no other
    entry; a second call for the same literal returns the same
    identifier and leaves the table as it is. *)
Theorem getOccurrenceId_records_operator uniterm lookup pO lookup' :
  getOccurrenceId uniterm lookup = Ok (pO, lookup') →
  (∃ op, GetOp uniterm = Ok op ∧ lookup' !! pO = Some op)
  ∧ (∀ k, k ≠ pO → lookup' !! k = lookup !! k)
  ∧ getOccurrenceId uniterm lookup' = Ok (pO, lookup').
Proof.
  unfold getOccurrenceId.
  destruct (GetOp uniterm) as [op|e]; cbn [mbind res_bind rbind]; [|done].
  destruct (GetArgs uniterm false) as [args|e]; cbn [rbind]; [|done].
  intros [= <- <-]. split; [|split].
  - exists op. split; [done|]. by rewrite lookup_insert_eq.
  - intros k Hk. by apply lookup_insert_ne.
  - cbn [mbind res_bind rbind]. by rewrite insert_insert_eq.
Qed.

Lemma getOccurrenceId_records_operator_witness :
  (∃ op, GetOp (atom "sg" "Z1" "Z2") = Ok op
         ∧ (<[ex "sg_Z1_Z2" := ex "sg"]> ∅ : gmap term term)
             !! ex "sg_Z1_Z2" = Some op)
  ∧ (∀ k, k ≠ ex "sg_Z1_Z2" →
       (<[ex "sg_Z1_Z2" := ex "sg"]> ∅ : gmap term term) !! k
       = (∅ : gmap term term) !! k)
  ∧ getOccurrenceId (atom "sg" "Z1" "Z2") (<[ex "sg_Z1_Z2" := ex "sg"]> ∅)
    = Ok (ex "sg_Z1_Z2", <[ex "sg_Z1_Z2" := ex "sg"]> ∅).
Proof.
  apply (getOccurrenceId_records_operator (atom "sg" "Z1" "Z2") ∅
           (ex "sg_Z1_Z2") (<[ex "sg_Z1_Z2" := ex "sg"]> ∅)).
  reflexivity.
Defined.

Lemma findFullSip_fuel_raises `{PyRuntime} fuel rt vars right e :
  stop (findFullSip_fuel fuel rt vars right) = Some e →
  e = TypeError ∨ e = NonTermination.
Proof.
  revert rt vars right e.
  induction fuel as [|fuel IH]; intros rt vars right e;
    rewrite findFullSip_fuel_unfold;
    (destruct (match vars with Some _ => _ | None => _ end) as [v|e'] eqn:Hv;
       [|simpl; intros [= <-]; left;
         destruct vars as [v|]; [destruct (nonempty v); [done|]|];
         by apply initial_vars_raises in Hv]);
    (destruct (seq_items right) as [|r0 [|r1 items]];
       [done
       |destruct (GetArgs r0 true) as [args|e'] eqn:Ha;
          [by destruct (nonempty _)
          |simpl; intros [= <-]; left; by apply GetArgs_raises in Ha]
       |]);
    apply (gen_for_stop (λ e, e = TypeError ∨ e = NonTermination));
    intros item e0 _;
    (destruct (GetArgs item true) as [args|e'] eqn:Ha;
       [|simpl; intros [= <-]; left; by apply GetArgs_raises in Ha]);
    cbv zeta; (destruct (nonempty _); [|done]).
  - intros [= <-]. by right.
  - apply IH.
Qed.

Lemma nonempty_union_l (X Y : gset term) :
  nonempty (Y ∩ X) = true → nonempty (X ∪ Y ∖ X) = true.
Proof.
  unfold nonempty. rewrite !bool_decide_eq_true. intros Hne He.
  apply Hne. apply set_eq. intros x. split; [|by intros ?%elem_of_empty].
  intros [_ Hx]%elem_of_intersection.
  assert (x ∈ X ∪ Y ∖ X) as Hin by (apply elem_of_union; by left).
  by rewrite He in Hin.
Qed.

Lemma isLiteral_GetArgs x secondOrder :
  isLiteral x = true → ∃ args, GetArgs x secondOrder = Ok args.
Proof.
  destruct x as [u a r|op a0 a1 naf|f|fs|fs]; try done; intros _; simpl;
    [by eexists|]. repeat case_match; by eexists.
Qed.

Lemma findFullSip_fuel_literals `{PyRuntime} fuel rt v right e :
  nonempty v = true →
  Forall (λ x, isLiteral x = true) (seq_items right) →
  stop (findFullSip_fuel fuel rt (Some v) right) = Some e →
  e = NonTermination.
Proof.
  pose proof (λ x, isLiteral_GetArgs x true) as Hlit.
  revert rt v right e.
  induction fuel as [|fuel IH]; intros rt v right e Hv Hall;
    rewrite findFullSip_fuel_unfold, Hv;
    (destruct (seq_items right) as [|r0 [|r1 items]];
       [done
       |apply Forall_cons_1 in Hall as [Hr0 _];
        destruct (Hlit r0 Hr0) as [args ->];
        by destruct (nonempty (_ ∩ _))
       |]);
    rewrite Forall_forall in Hall;
    apply (gen_for_stop (λ e, e = NonTermination));
    intros item e0 Hitem;
    (destruct (Hlit item (Hall item Hitem)) as [args ->]);
    cbv zeta; (destruct (nonempty (_ ∩ _)) eqn:Hne; [|done]).
  - by intros [= <-].
  - apply IH; [by apply nonempty_union_l|].
    cbn [seq_items]. apply Forall_forall. intros x Hx.
    apply elem_of_filter_bool in Hx as [_ Hx]. by apply Hall.
Qed.

(** X26.  When no condition differs from itself, [findFullSip] ends,
    and the one exception it can raise is the [TypeError] of [GetArgs]
    on a term that is not a literal: started from a head literal on a
    body of literals it raises nothing. *)
Theorem findFullSip_exceptions `{PyRuntime} head right :
  (∀ c, cond_neq c c = false) →
  (∀ e, stop (findFullSip ([head], None) right) = Some e → e = TypeError)
  ∧ (isLiteral head = true →
     Forall (λ x, isLiteral x = true) (seq_items right) →
     stop (findFullSip ([head], None) right) = None).
Proof.
  intros Hrefl.
  assert (∀ e, stop (findFullSip ([head], None) right) = Some e →
               e = TypeError) as Honly.
  { intros e He.
    destruct (findFullSip_fuel_raises _ _ _ _ _ He) as [->| ->]; [done|].
    by apply findFullSip_fuel_terminates in He. }
  split; [done|]. intros Hhead Hall.
  assert (∀ e, stop (findFullSip ([head], None) right) = Some e → False)
    as Hno; [|destruct (stop _) as [e|]; [by destruct (Hno e)|done]].
  intros e He. pose proof (Honly e He) as ->. revert He.
  unfold findFullSip. cbn [fst snd].
  destruct (isLiteral_GetArgs head true Hhead) as [hargs Hh].
  assert (hargs ≠ []) as Hne by (by eapply GetArgs_nonempty).
  assert (nonempty (list_to_set hargs) = true) as Hv.
  { apply bool_decide_eq_true. destruct hargs as [|x l]; [done|].
    intros Hs. apply (not_elem_of_empty (C:=gset term) x).
    rewrite <- Hs. apply elem_of_list_to_set. by left. }
  intros He.
  assert (findFullSip_fuel (length (seq_items right)) [head] None right
          = findFullSip_fuel (length (seq_items right)) [head]
              (Some (list_to_set hargs)) right) as Heq.
  { rewrite !findFullSip_fuel_unfold. rewrite Hv. simpl. by rewrite Hh. }
  rewrite Heq in He. by apply findFullSip_fuel_literals in He.
Qed.

Lemma findFullSip_exceptions_witness :
  (∀ e, stop (@findFullSip structuralRuntime ([sg_head], None)
                (AndSeq sg_body)) = Some e → e = TypeError)
  ∧ (isLiteral sg_head = true →
     Forall (λ x, isLiteral x = true) (seq_items (AndSeq sg_body)) →
     stop (@findFullSip structuralRuntime ([sg_head], None) (AndSeq sg_body))
     = None).
Proof.
  apply (@findFullSip_exceptions structuralRuntime sg_head (AndSeq sg_body)).
  intros c. simpl. by rewrite condition_eqb_refl.
Defined.
